(** * ibwt_ecology: basin matching and fish-diversity scoring

    A shallow embedding of [src/match_fish_diversity.py] (with the loader of
    [src/data_ingest.py] it depends on) and the properties its specification
    states about it.

    Conventions of the embedding.
    - A Python [str] is a list of Unicode code points ([N]).  Literals are
      written as Rocq strings and decoded from UTF-8 by [py].
    - A Python [float] is modelled by the rational it denotes ([Q]).  Every
      operation that rounds ([float(text)], [int / int], [float - float])
      goes through a rounding operator [RN] of which only the standard
      error bound of binary64 is used (relative error at most [2^-53]);
      exact arithmetic is the instance [RN x = x].  Overflow to [inf] is
      outside the model.  Equalities between rationals are stated with [==].
    - The elements of a Python [set] are objects: a string is an element
      by its value, the float nan by its identity ([species_obj]).
    - A call either returns or raises: [outcome].
    - [print] appends a line to the standard output, which is threaded
      explicitly. *)

From Stdlib Require Import ZArith NArith QArith Qabs Lia Lqa List String Ascii.
From stdpp Require Import base option list gmap sets strings.

Local Open Scope N_scope.

(* ===================================================================== *)
(** * Python run-time values                                              *)
(* ===================================================================== *)

Abbreviation codepoint := N (only parsing).
Abbreviation str := (list N) (only parsing).
Abbreviation float := Q (only parsing).

Inductive exn : Type :=
  | ValueError (msg : str)
  | IndexError (msg : str).

Inductive outcome (A : Type) : Type :=
  | Returned (a : A)
  | Raised (e : exn).
Arguments Returned {A} a.
Arguments Raised {A} e.

(** ** Floating point *)

Definition unit_roundoff : Q := Eval cbv in 1 # (2 ^ 53).

Class Rounding : Type := {
  RN : Q -> Q;
  RN_proper : forall x y, (x == y)%Q -> (RN x == RN y)%Q;
  RN_error : forall x, (Qabs (RN x - x) <= Qabs x * unit_roundoff)%Q
}.

(** [a / b] on [int]s (true division, correctly rounded), [x - y] and [-x]
    on floats. *)
Definition truediv `{Rounding} (a b : Z) : float := RN (inject_Z a / inject_Z b)%Q.
Definition float_sub `{Rounding} (x y : float) : float := RN (x - y)%Q.
Definition float_neg (x : float) : float := (- x)%Q.

(** Sequencing stops at the first exception ([x ← c; k] below). *)
#[global] Instance outcome_ret : MRet outcome := fun A a => Returned a.
#[global] Instance outcome_bind : MBind outcome := fun A B f x =>
  match x with
  | Returned a => f a
  | Raised e => Raised e
  end.

(** ** String literals: UTF-8 source text to code points *)

Fixpoint utf8_decode (bs : list N) : str :=
  match bs with
  | [] => []
  | b0 :: r0 =>
      if b0 <? 128 then b0 :: utf8_decode r0
      else if b0 <? 224 then
        match r0 with
        | b1 :: r1 => ((b0 mod 32) * 64 + b1 mod 64) :: utf8_decode r1
        | _ => []
        end
      else if b0 <? 240 then
        match r0 with
        | b1 :: b2 :: r2 =>
            ((b0 mod 16) * 4096 + (b1 mod 64) * 64 + b2 mod 64) :: utf8_decode r2
        | _ => []
        end
      else
        match r0 with
        | b1 :: b2 :: b3 :: r3 =>
            ((b0 mod 8) * 262144 + (b1 mod 64) * 4096 + (b2 mod 64) * 64 + b3 mod 64)
              :: utf8_decode r3
        | _ => []
        end
  end.

Definition py (s : string) : str :=
  utf8_decode (map N_of_ascii (list_ascii_of_string s)).

Definition str_eqb (a b : str) : bool := bool_decide (a = b).

(** ** Character classes of [re] on [str] patterns

    [\d] is [Py_UNICODE_ISDECIMAL] (general category Nd) and [\s] is
    [Py_UNICODE_ISSPACE].  Both tables belong to the interpreter, not to the
    repository; they are listed here as of Unicode 14.0.  Every Nd block
    starts at the digit zero and runs through the digits in order, so the
    decimal value is the offset in the block modulo ten (the mathematical
    digits U+1D7CE..U+1D7FF are five runs of ten). *)

Definition Nd_blocks : list (codepoint * N) :=
  [ (48, 10); (1632, 10); (1776, 10); (1984, 10); (2406, 10); (2534, 10);
    (2662, 10); (2790, 10); (2918, 10); (3046, 10); (3174, 10); (3302, 10);
    (3430, 10); (3558, 10); (3664, 10); (3792, 10); (3872, 10); (4160, 10);
    (4240, 10); (6112, 10); (6160, 10); (6470, 10); (6608, 10); (6784, 10);
    (6800, 10); (6992, 10); (7088, 10); (7232, 10); (7248, 10); (42528, 10);
    (43216, 10); (43264, 10); (43472, 10); (43504, 10); (43600, 10);
    (44016, 10); (65296, 10); (66720, 10); (68912, 10); (69734, 10);
    (69872, 10); (69942, 10); (70096, 10); (70384, 10); (70736, 10);
    (70864, 10); (71248, 10); (71360, 10); (71472, 10); (71904, 10);
    (72016, 10); (72784, 10); (73040, 10); (73120, 10); (92768, 10);
    (92864, 10); (93008, 10); (120782, 50); (123200, 10); (123632, 10);
    (125264, 10); (130032, 10) ].

Definition in_block (c : codepoint) (b : codepoint * N) : bool :=
  (fst b <=? c) && (c <? fst b + snd b).

Definition Py_UNICODE_TODECIMAL (c : codepoint) : option N :=
  match List.find (in_block c) Nd_blocks with
  | Some b => Some ((c - fst b) mod 10)
  | None => None
  end.

Definition Py_UNICODE_ISDECIMAL (c : codepoint) : bool :=
  match Py_UNICODE_TODECIMAL c with Some _ => true | None => false end.

Definition whitespace : list codepoint :=
  [ 9; 10; 11; 12; 13; 28; 29; 30; 31; 32; 133; 160; 5760;
    8192; 8193; 8194; 8195; 8196; 8197; 8198; 8199; 8200; 8201; 8202;
    8232; 8233; 8239; 8287; 12288 ].

Definition Py_UNICODE_ISSPACE (c : codepoint) : bool :=
  existsb (N.eqb c) whitespace.

Definition FULL_STOP : codepoint := 46.      (* '.' *)
Definition DEGREE_SIGN : codepoint := 176.   (* U+00B0 *)
Definition LETTER_N : codepoint := 78.
Definition LETTER_S : codepoint := 83.
Definition LETTER_E : codepoint := 69.
Definition LETTER_W : codepoint := 87.

(** ** [float(text)] on the decimal texts the pattern group can capture

    The value of [digits], [digits.], [.digits] and [digits.digits].  [float]
    accepts more (signs, exponents, [inf], [nan], underscores, surrounding
    blanks); those forms cannot come out of the first group of the patterns and are
    answered here with the [ValueError] that a non-numeric text gets. *)

Fixpoint digits_value (acc : N) (ds : str) : option N :=
  match ds with
  | [] => Some acc
  | c :: ds' =>
      match Py_UNICODE_TODECIMAL c with
      | Some d => digits_value (10 * acc + d) ds'
      | None => None
      end
  end.

Fixpoint split_at_stop (s : str) : str * option str :=
  match s with
  | [] => ([], None)
  | c :: s' =>
      if c =? FULL_STOP then ([], Some s')
      else let '(i, f) := split_at_stop s' in (c :: i, f)
  end.

Definition APOSTROPHE : codepoint := 39.

(** [repr(text)] of a text of decimal digits and full stops, the only
    texts [float] is applied to here (the first group of a pattern, the
    text [parse_flow_value] keeps): the text between two apostrophes.
    Nothing is escaped, as the text holds no quote, no backslash and only
    printable characters. *)
Definition repr (s : str) : str := APOSTROPHE :: s ++ [APOSTROPHE].

(** The [ValueError] of [float]: the message ends with the [repr] of the
    text. *)
Definition could_not_convert (s : str) : exn :=
  ValueError (py "could not convert string to float: " ++ repr s).

Definition float_of_str `{Rounding} (s : str) : outcome float :=
  let '(ip, fp) := split_at_stop s in
  let fp := match fp with Some f => f | None => [] end in
  match ip ++ fp, digits_value 0 ip, digits_value 0 fp with
  | _ :: _, Some i, Some f =>
      Returned (RN (inject_Z (Z.of_N i)
                    + inject_Z (Z.of_N f) / inject_Z (10 ^ Z.of_nat (length fp)))%Q)
  | _, _, _ => Raised (could_not_convert s)
  end.


(* ===================================================================== *)
(** * [re]: the fragment of the regular expressions the parser uses       *)
(* ===================================================================== *)

(** A pattern is a sequence of one-character atoms, each under a greedy
    quantifier and inside at most one capturing group ([0]: none).
    [re.search] tries the start positions from the left; at one start
    position the atoms are matched by backtracking, longest repetition
    first, as [sre] does. *)

Inductive quantifier : Type :=
  | One        (* x  *)
  | Optional   (* x? *)
  | Star       (* x* *)
  | Plus.      (* x+ *)

Record atom : Type := Atom {
  accepts : codepoint -> bool;
  quant : quantifier;
  in_group : nat
}.

Definition pattern := list atom.

(** The result of matching at one position: the text each atom consumed, in
    order, and the rest of the subject. *)
Abbreviation segments := (list str * str)%type (only parsing).

Definition open_seg (r : option segments) : option segments :=
  match r with
  | Some (segs, rest) => Some ([] :: segs, rest)
  | None => None
  end.

Definition cons_seg (c : codepoint) (r : option segments) : option segments :=
  match r with
  | Some (seg :: segs, rest) => Some ((c :: seg) :: segs, rest)
  | _ => None
  end.

Section MatchAtom.
Variable ok : codepoint -> bool.
(** [k]: matching of the atoms that follow. *)
Variable k : str -> option segments.

Definition skip (s : str) : option segments := open_seg (k s).

Definition one (k' : str -> option segments) (s : str) : option segments :=
  match s with
  | c :: s' => if ok c then cons_seg c (k' s') else None
  | [] => None
  end.

Fixpoint star (s : str) : option segments :=
  match s with
  | c :: s' =>
      if ok c then
        match cons_seg c (star s') with
        | Some r => Some r
        | None => skip s
        end
      else skip s
  | [] => skip s
  end.

Definition match_atom (q : quantifier) (s : str) : option segments :=
  match q with
  | One => one skip s
  | Optional => match one skip s with Some r => Some r | None => skip s end
  | Star => star s
  | Plus => one star s
  end.
End MatchAtom.

Fixpoint match_here (p : pattern) (s : str) {struct p} : option segments :=
  match p with
  | [] => Some ([], s)
  | a :: p' => match_atom (accepts a) (match_here p') (quant a) s
  end.

(** A match object: where the match starts and what each atom consumed. *)
Record Match : Type := mkMatch {
  m_pattern : pattern;
  m_start : nat;
  m_segs : list str
}.

Fixpoint search_from (p : pattern) (pos : nat) (s : str) : option Match :=
  match match_here p s with
  | Some (segs, _) => Some (mkMatch p pos segs)
  | None =>
      match s with
      | [] => None
      | _ :: s' => search_from p (S pos) s'
      end
  end.

Definition re_search (p : pattern) (s : str) : option Match := search_from p 0 s.

Fixpoint group_text (n : nat) (p : pattern) (segs : list str) : str :=
  match p, segs with
  | a :: p', seg :: segs' =>
      (if Nat.eqb (in_group a) n then seg else []) ++ group_text n p' segs'
  | _, _ => []
  end.

Definition group (m : Match) (n : nat) : str := group_text n (m_pattern m) (m_segs m).

Definition is_char (c : codepoint) : codepoint -> bool := N.eqb c.
Definition one_of (cs : list codepoint) (c : codepoint) : bool := existsb (N.eqb c) cs.

(** The two patterns of the parser, atom by atom: group 1 is one or more
    decimal digits, an optional full stop and any number of digits; then
    come any number of blanks and the degree sign; group 2 is one of the
    two hemisphere letters. *)
Definition hemisphere_pattern (letters : list codepoint) : pattern :=
  [ Atom Py_UNICODE_ISDECIMAL Plus 1;
    Atom (is_char FULL_STOP) Optional 1;
    Atom Py_UNICODE_ISDECIMAL Star 1;
    Atom Py_UNICODE_ISSPACE Star 0;
    Atom (is_char DEGREE_SIGN) One 0;
    Atom (one_of letters) One 2 ].

Definition lat_pattern : pattern := hemisphere_pattern [LETTER_N; LETTER_S].
Definition lon_pattern : pattern := hemisphere_pattern [LETTER_E; LETTER_W].

(* ===================================================================== *)
(** * CoordinateParser: [parse_coordinate_string]                          *)
(* ===================================================================== *)

Definition could_not_parse (coord_str : str) : exn :=
  ValueError (py "Could not parse coordinates from: " ++ coord_str).

Definition parse_coordinate_string `{Rounding} (coord_str : str)
  : outcome (float * float) :=
  let lat_match := re_search lat_pattern coord_str in
  let lon_match := re_search lon_pattern coord_str in
  match lat_match, lon_match with
  | Some lat_match, Some lon_match =>
      lat ← float_of_str (group lat_match 1);
      let lat := if str_eqb (group lat_match 2) (py "S") then float_neg lat else lat in
      lon ← float_of_str (group lon_match 1);
      let lon := if str_eqb (group lon_match 2) (py "W") then float_neg lon else lon in
      Returned (lat, lon)
  | _, _ => Raised (could_not_parse coord_str)
  end.


(* ===================================================================== *)
(** * pandas / geopandas: frames, series, positional and label access     *)
(* ===================================================================== *)

(** A frame or a series is a list of rows, each carrying its index label.
    A freshly read table has the labels [0, 1, 2, ...] (a RangeIndex); a
    boolean-mask selection keeps the rows in order with their labels. *)
Abbreviation indexed A := (list (Z * A)) (only parsing).

Definition range_index {A} (rows : list A) : indexed A :=
  imap (fun i row => (Z.of_nat i, row)) rows.

Definition select {A} (mask : A -> bool) (df : indexed A) : indexed A :=
  List.filter (fun r => mask (snd r)) df.

(** [df.iloc[i]]: by position, negative positions count from the end. *)
Definition iloc {A} (df : indexed A) (i : Z) : outcome A :=
  let n := Z.of_nat (length df) in
  let j := if (i <? 0)%Z then (i + n)%Z else i in
  match (if (0 <=? j)%Z then df !! Z.to_nat j else None) with
  | Some r => Returned (snd r)
  | None => Raised (IndexError (py "single positional indexer is out-of-bounds"))
  end.

(** [s.idxmin()]: the label of the first occurrence of the minimum. *)
Fixpoint idxmin_from (best : Z * float) (s : indexed float) : Z :=
  match s with
  | [] => fst best
  | r :: s' => idxmin_from (if Qlt_le_dec (snd r) (snd best) then r else best) s'
  end.

Definition idxmin (s : indexed float) : outcome Z :=
  match s with
  | [] => Raised (ValueError (py "attempt to get argmin of an empty sequence"))
  | r :: s' => Returned (idxmin_from r s')
  end.

(** [s.unique()]: the distinct values in order of first appearance (a
    missing value, [None], is one of them); [s.nunique()] drops the missing
    values before counting. *)
Fixpoint unique_from {A} `{EqDecision A} (seen : list A) (l : list A) : list A :=
  match l with
  | [] => []
  | x :: l' =>
      if decide (x ∈ seen) then unique_from seen l'
      else x :: unique_from (x :: seen) l'
  end.

Definition unique {A} `{EqDecision A} (l : list A) : list A := unique_from [] l.

Definition dropna {A} (l : list (option A)) : list A := omap id l.

Definition nunique {A} `{EqDecision A} (l : list (option A)) : nat :=
  length (unique (dropna l)).

(* ===================================================================== *)
(** * BasinLocator: [find_basin_by_coordinates]                            *)
(* ===================================================================== *)

(** [shapely.geometry.Point(x, y)] *)
Record Point : Type := mkPoint { pt_x : float; pt_y : float }.

(** What the locator needs from the geometry library: [contains] and the
    planar [distance] of a geometry to a point. *)
Class Geometry (G : Type) : Type := {
  contains : G -> Point -> bool;
  distance : G -> Point -> float
}.

(** One record of the basin shapefile. *)
Record Basin (G : Type) : Type := mkBasin {
  BasinName : string;
  geometry : G
}.
Arguments mkBasin {G}.
Arguments BasinName {G}.
Arguments geometry {G}.

(** [gpd.read_file]: the records in file order under a RangeIndex. *)
Definition load_shapefile {G} (records : list (Basin G)) : indexed (Basin G) :=
  range_index records.

(** Lines of the standard output, one constructor per [print] of the
    module, with the values its f-string interpolates. *)
Inductive line : Type :=
  | WarningNearest (lat lon : float) (nearest_basin : string) (nearest_distance : float)
  | Processing (rank : Z) (basin_pair : string)
  | SenderBasin (sender_basin : string) (species_count : nat)
  | ReceiverBasin (receiver_basin : string) (species_count : nat)
  | Dissimilarity (jaccard_dissimilarity : float).

(** A computation that prints: the lines written, then how it ended. *)
Abbreviation printing A := (list line * outcome A)%type (only parsing).

Definition find_basin_by_coordinates {G} `{Geometry G}
    (lat lon : float) (basins_gdf : indexed (Basin G)) : printing string :=
  let point := mkPoint lon lat in
  let containing_basins := select (fun b => contains (geometry b) point) basins_gdf in
  if (0 <? length containing_basins)%nat then
    ([], b ← iloc containing_basins 0; Returned (BasinName b))
  else
    let distances := map (fun r => (fst r, distance (geometry (snd r)) point)) basins_gdf in
    match idxmin distances with
    | Raised e => ([], Raised e)
    | Returned nearest_idx =>
        match iloc basins_gdf nearest_idx, iloc distances nearest_idx with
        | Returned b, Returned nearest_distance =>
            let nearest_basin := BasinName b in
            ([WarningNearest lat lon nearest_basin nearest_distance],
             Returned nearest_basin)
        | Raised e, _ => ([], Raised e)
        | _, Raised e => ([], Raised e)
        end
    end.

(* ===================================================================== *)
(** * DiversityAggregator: [get_basin_fish_diversity]                      *)
(* ===================================================================== *)

(** One row of the occurrence table, with the three columns the module
    reads; an empty CSV field is a missing value. *)
Record Occurrence : Type := mkOccurrence {
  Basin_Name : option string;                   (* '1.Basin.Name' *)
  Native_Exotic_Status : option string;         (* '3.Native.Exotic.Status' *)
  Fishbase_Valid_Species_Name : option string   (* '6.Fishbase.Valid.Species.Name' *)
}.

(** [column == value]: a missing value equals nothing. *)
Definition eq_str (cell : option string) (value : string) : bool :=
  bool_decide (cell = Some value).

Record Diversity : Type := mkDiversity {
  species_count : nat;
  native_species_count : nat;
  exotic_species_count : nat;
  species_list : list (option string)
}.

Definition species_column (df : indexed Occurrence) : list (option string) :=
  map (fun r => Fishbase_Valid_Species_Name (snd r)) df.

Definition get_basin_fish_diversity (basin_name : string) (occ_df : indexed Occurrence)
  : Diversity :=
  let basin_fish := select (fun r => eq_str (Basin_Name r) basin_name) occ_df in
  if Nat.eqb (length basin_fish) 0 then
    mkDiversity 0 0 0 []
  else
    let species_count := nunique (species_column basin_fish) in
    let native_fish :=
      select (fun r => eq_str (Native_Exotic_Status r) "native") basin_fish in
    let exotic_fish :=
      select (fun r => eq_str (Native_Exotic_Status r) "exotic") basin_fish in
    let native_species_count := nunique (species_column native_fish) in
    let exotic_species_count := nunique (species_column exotic_fish) in
    let species_list := unique (species_column basin_fish) in
    mkDiversity species_count native_species_count exotic_species_count species_list.

(* ===================================================================== *)
(** * PipelineOrchestrator: [parse_ibt_coordinates] and [main]             *)
(* ===================================================================== *)

(** One row of [Top_20_IBT_Projects_with_Coordinates.csv]. *)
Module Ibt.
Record row : Type := mk {
  rank : Z;                      (* '#' *)
  basin_pair : string;           (* 'Basin Pair' *)
  project : string;              (* 'Project (Country)' *)
  design_flow : string;          (* 'Design Flow (km³/yr)' *)
  sender_coordinates : str;      (* 'Sender Coordinates' *)
  receiver_coordinates : str     (* 'Receiver Coordinates' *)
}.
End Ibt.

(** One entry of the list [projects]. *)
Module Project.
Record t : Type := mk {
  rank : Z;
  basin_pair : string;
  project : string;
  design_flow : string;
  sender_lat : float;
  sender_lon : float;
  receiver_lat : float;
  receiver_lon : float
}.
End Project.

Fixpoint parse_ibt_coordinates `{Rounding} (ibt_df : list Ibt.row)
  : outcome (list Project.t) :=
  match ibt_df with
  | [] => Returned []
  | row :: ibt_df' =>
      let sender_coords := Ibt.sender_coordinates row in
      let receiver_coords := Ibt.receiver_coordinates row in
      s ← parse_coordinate_string sender_coords;
      r ← parse_coordinate_string receiver_coords;
      projects ← parse_ibt_coordinates ibt_df';
      Returned (Project.mk (Ibt.rank row) (Ibt.basin_pair row) (Ibt.project row)
                  (Ibt.design_flow row) (fst s) (snd s) (fst r) (snd r) :: projects)
  end.

(** One entry of the list [results], a row of the output table. *)
Record Result : Type := mkResult {
  rank : Z;
  basin_pair : string;
  project : string;
  design_flow : string;
  sender_basin : string;
  receiver_basin : string;
  sender_species_count : nat;
  sender_native_count : nat;
  sender_exotic_count : nat;
  receiver_species_count : nat;
  receiver_native_count : nat;
  receiver_exotic_count : nat;
  jaccard_similarity : float;
  jaccard_dissimilarity : float;
  shared_species_count : nat;
  total_unique_species : nat
}.

(** ** The elements of a species set

    [set(species_list)] compares the elements of the list as Python
    objects.  A name is a string and compares by value.  A missing name is
    the float nan, which is equal to no float, itself included, so that a
    set tells two nans apart by identity alone.  Which nan object a list
    holds depends on the dtype [read_csv] gave the species column:
    - a column with at least one name has dtype object; all its missing
      cells hold the one object [numpy.nan], and [unique().tolist()] hands
      that object out, so that the nans of two lists are one element;
    - a column without any name is read as float64, and [tolist()] builds
      a new float for every element at every call, so that the nan of one
      list is never the nan of another. *)
Inductive species_obj : Type :=
  | species_name (s : string)
  | np_nan                       (* the object [numpy.nan] *)
  | float_nan (call : nat).      (* the nan built by one call of [tolist] *)

#[global] Instance species_obj_eq_dec : EqDecision species_obj.
Proof. solve_decision. Defined.

#[global] Instance species_obj_countable : Countable species_obj.
Proof.
  refine (inj_countable'
            (fun o => match o with
                      | species_name s => inl s
                      | np_nan => inr None
                      | float_nan call => inr (Some call)
                      end)
            (fun x => match x with
                      | inl s => species_name s
                      | inr None => np_nan
                      | inr (Some call) => float_nan call
                      end) _).
  intros []; reflexivity.
Defined.

(** Whether a column of names and missing values is read as float64: it
    has a cell, and no cell holds a name. *)
Definition float64_column (col : list (option string)) : bool :=
  negb (Nat.eqb (length col) 0) && forallb (fun cell => bool_decide (cell = None)) col.

(** The objects of the species list that the [call]-th call of
    [get_basin_fish_diversity] of an iteration returns ([0] for the sender,
    [1] for the receiver), by the dtype of the species column of the
    occurrence table. *)
Definition objects (occ_df : indexed Occurrence) (call : nat)
    (species_list : list (option string)) : list species_obj :=
  map (fun cell =>
         match cell with
         | Some s => species_name s
         | None =>
             if float64_column (species_column occ_df) then float_nan call else np_nan
         end) species_list.

(** The beta-diversity step of the loop body, on the two species sets. *)
Definition jaccard `{Rounding} (sender_species receiver_species : gset species_obj)
  : float * float :=
  if Nat.eqb (size sender_species) 0 && Nat.eqb (size receiver_species) 0 then
    (0, 0)%Q
  else
    let intersection := size (sender_species ∩ receiver_species) in
    let union := size (sender_species ∪ receiver_species) in
    let jaccard_similarity :=
      if (0 <? union)%nat then truediv (Z.of_nat intersection) (Z.of_nat union)
      else 0%Q in
    let jaccard_dissimilarity := float_sub 1%Q jaccard_similarity in
    (jaccard_similarity, jaccard_dissimilarity).

Section Main.
Context `{Rounding} {G : Type} `{Geometry G}.
Variable basins_gdf : indexed (Basin G).
Variable occ_df : indexed Occurrence.

(** The body of the loop over the projects. *)
Definition main_body (project : Project.t) : printing Result :=
  let out0 := [Processing (Project.rank project) (Project.basin_pair project)] in
  let '(out1, sender) :=
    find_basin_by_coordinates (Project.sender_lat project)
      (Project.sender_lon project) basins_gdf in
  match sender with
  | Raised e => (out0 ++ out1, Raised e)
  | Returned sender_basin =>
  let '(out2, receiver) :=
    find_basin_by_coordinates (Project.receiver_lat project)
      (Project.receiver_lon project) basins_gdf in
  match receiver with
  | Raised e => (out0 ++ out1 ++ out2, Raised e)
  | Returned receiver_basin =>
  let sender_diversity := get_basin_fish_diversity sender_basin occ_df in
  let receiver_diversity := get_basin_fish_diversity receiver_basin occ_df in
  let sender_species : gset species_obj :=
    list_to_set (objects occ_df 0 (species_list sender_diversity)) in
  let receiver_species : gset species_obj :=
    list_to_set (objects occ_df 1 (species_list receiver_diversity)) in
  let '(jaccard_similarity, jaccard_dissimilarity) :=
    jaccard sender_species receiver_species in
  let result :=
    mkResult (Project.rank project) (Project.basin_pair project)
      (Project.project project) (Project.design_flow project)
      sender_basin receiver_basin
      (species_count sender_diversity)
      (native_species_count sender_diversity)
      (exotic_species_count sender_diversity)
      (species_count receiver_diversity)
      (native_species_count receiver_diversity)
      (exotic_species_count receiver_diversity)
      jaccard_similarity jaccard_dissimilarity
      (size (sender_species ∩ receiver_species))
      (size (sender_species ∪ receiver_species)) in
  (out0 ++ out1 ++ out2
     ++ [SenderBasin sender_basin (species_count sender_diversity);
         ReceiverBasin receiver_basin (species_count receiver_diversity);
         Dissimilarity jaccard_dissimilarity],
   Returned result)
  end end.

Fixpoint main_loop (ibt_projects : list Project.t) : printing (list Result) :=
  match ibt_projects with
  | [] => ([], Returned [])
  | project :: rest =>
      match main_body project with
      | (out, Raised e) => (out, Raised e)
      | (out, Returned result) =>
          let '(out', results) := main_loop rest in
          (out ++ out',
           match results with
           | Returned results => Returned (result :: results)
           | Raised e => Raised e
           end)
      end
  end.
End Main.

(** [main] on the contents of the three input files: the basin records of
    the shapefile, the rows of the occurrence table and the rows of the
    project table.  The value is what is printed and the rows of
    [results_df]. *)
Definition main `{Rounding} {G : Type} `{Geometry G}
    (shapefile : list (Basin G)) (occurrence_table : list Occurrence)
    (ibt_table : list Ibt.row) : printing (list Result) :=
  let occ_df := range_index occurrence_table in
  let basins_gdf := load_shapefile shapefile in
  match parse_ibt_coordinates ibt_table with
  | Raised e => ([], Raised e)
  | Returned ibt_projects => main_loop basins_gdf occ_df ibt_projects
  end.

(** ** Instances used to run the model

    Exact arithmetic, and a geometry with rational distances: the closed
    strip between two meridians, whose interior is what [contains] tests
    and whose Euclidean distance to a point is the gap in longitude. *)

Lemma exact_error (x : Q) : (Qabs (x - x) <= Qabs x * unit_roundoff)%Q.
Proof.
  assert (E : (x - x == 0)%Q) by ring.
  rewrite E. simpl.
  apply Qmult_le_0_compat; [apply Qabs_nonneg | discriminate].
Qed.

#[global] Instance exact_arithmetic : Rounding :=
  {| RN := fun x => x; RN_proper := fun x y E => E; RN_error := exact_error |}.

Record Strip : Type := mkStrip { west : Q; east : Q }.

#[global] Instance strip_geometry : Geometry Strip := {|
  contains g p :=
    if Qlt_le_dec (west g) (pt_x p) then
      if Qlt_le_dec (pt_x p) (east g) then true else false
    else false;
  distance g p :=
    if Qlt_le_dec (pt_x p) (west g) then (west g - pt_x p)%Q
    else if Qlt_le_dec (east g) (pt_x p) then (pt_x p - east g)%Q
    else 0%Q
|}.

Definition demo_basins : list (Basin Strip) :=
  [ mkBasin "Ganges" (mkStrip 70 90)%Q; mkBasin "Indus" (mkStrip 60 75)%Q;
    mkBasin "Nile" (mkStrip 25 40)%Q ].
Definition demo_occ : list Occurrence :=
  [ mkOccurrence (Some "Ganges") (Some "native") (Some "A");
    mkOccurrence (Some "Ganges") (Some "native") (Some "B");
    mkOccurrence (Some "Ganges") (Some "exotic") (Some "C");
    mkOccurrence (Some "Ganges") (Some "native") (Some "A");
    mkOccurrence (Some "Nile") (Some "native") (Some "B");
    mkOccurrence (Some "Nile") None (Some "C");
    mkOccurrence (Some "Nile") (Some "exotic") (Some "D") ].
Definition demo_ibt : list Ibt.row :=
  [ Ibt.mk 1 "Ganges-Nile" "Demo" "≈ 200" (py "Varanasi 25.32 °N 83.01 °E") (py "30.0 °N 31.2 °E");
    Ibt.mk 2 "X" "Demo2" "1" (py "10.0 °S 20.0 °W") (py "0 °N 50 °E") ].


(* ===================================================================== *)
(** * Vocabulary of the specification                                      *)
(* ===================================================================== *)

(** ** What a match is, independently of the search order *)

Definition all_in (ok : codepoint -> bool) (seg : str) : Prop :=
  Forall (fun c => ok c = true) seg.

(** The text an atom may consume under its quantifier. *)
Definition seg_ok (a : atom) (seg : str) : Prop :=
  all_in (accepts a) seg
  /\ match quant a with
     | One => length seg = 1%nat
     | Optional => (length seg <= 1)%nat
     | Star => True
     | Plus => (1 <= length seg)%nat
     end.

(** [s] starts with a match of [p] that consumes [segs] and leaves [rest]. *)
Definition Matches (p : pattern) (s : str) (segs : list str) (rest : str) : Prop :=
  Forall2 seg_ok p segs /\ s = concat segs ++ rest.

(** ** Coordinate tokens *)

Definition digits (s : str) : Prop := all_in Py_UNICODE_ISDECIMAL s.
Definition blanks (s : str) : Prop := all_in Py_UNICODE_ISSPACE s.

(** A magnitude: one or more digits, then optionally a full stop, then any
    number of digits. *)
Definition magnitude (num : str) : Prop :=
  exists ip dot fp,
    num = ip ++ dot ++ fp
    /\ ip <> [] /\ digits ip
    /\ (dot = [] \/ dot = [FULL_STOP])
    /\ digits fp.

(** The text of a token: magnitude, blanks, degree sign, hemisphere letter. *)
Definition token (num ws : str) (letter : codepoint) : str :=
  num ++ ws ++ [DEGREE_SIGN; letter].

Definition latitude_letters : list codepoint := [LETTER_N; LETTER_S].
Definition longitude_letters : list codepoint := [LETTER_E; LETTER_W].

(** [s] contains a token whose letter is one of [letters]. *)
Definition has_token (letters : list codepoint) (s : str) : Prop :=
  exists pre num ws letter post,
    magnitude num /\ blanks ws /\ letter ∈ letters
    /\ s = pre ++ token num ws letter ++ post.

(** Text around the tokens that cannot be taken for part of one: it holds
    no degree sign and does not end in a digit or a full stop. *)
Definition free_text (t : str) : bool :=
  forallb (fun c => negb (c =? DEGREE_SIGN)) t
  && match last t with
     | Some c => negb (Py_UNICODE_ISDECIMAL c) && negb (c =? FULL_STOP)
     | None => true
     end.

(** The sign a hemisphere letter gives to a magnitude. *)
Definition signed (letter : codepoint) (v : float) : float :=
  if (letter =? LETTER_S) || (letter =? LETTER_W) then float_neg v else v.
(* ===================================================================== *)
(** * Frames and series                                                    *)
(* ===================================================================== *)

Section Frames.
Context {A : Type}.
Implicit Types (df : indexed A) (rows : list A).

Lemma lookup_range_index rows i :
  range_index rows !! i = (fun row => (Z.of_nat i, row)) <$> rows !! i.
Proof. unfold range_index. rewrite list_lookup_imap. reflexivity. Qed.

Lemma range_index_app rows1 row rows2 :
  exists df2,
    range_index (rows1 ++ row :: rows2)
    = range_index rows1 ++ (Z.of_nat (length rows1), row) :: df2
    /\ Forall (fun r => snd r ∈ rows2) df2.
Proof.
  unfold range_index. rewrite imap_app, imap_cons.
  rewrite Nat.add_0_r. eexists. split; [reflexivity |].
  apply Forall_forall. intros r Hr.
  apply elem_of_lookup_imap in Hr as (i & a & -> & Ha).
  simpl. eapply list_elem_of_lookup_2, Ha.
Qed.

Lemma range_index_rows rows : Forall (fun r => snd r ∈ rows) (range_index rows).
Proof.
  apply Forall_forall. intros r Hr.
  apply elem_of_lookup_imap in Hr as (i & a & -> & Ha).
  simpl. eapply list_elem_of_lookup_2, Ha.
Qed.

Lemma length_range_index rows : length (range_index rows) = length rows.
Proof. apply length_imap. Qed.

Lemma iloc_lookup df i r : df !! i = Some r -> iloc df (Z.of_nat i) = Returned (snd r).
Proof.
  intros Hi. unfold iloc.
  destruct (Z.ltb_spec (Z.of_nat i) 0) as [Hneg | _]; [lia |].
  destruct (Z.leb_spec 0 (Z.of_nat i)) as [_ | Hneg]; [| lia].
  rewrite Nat2Z.id, Hi. reflexivity.
Qed.

Lemma select_nil (mask : A -> bool) df :
  Forall (fun r => mask (snd r) = false) df -> select mask df = [].
Proof.
  induction 1 as [| r df Hr _ IH]; [reflexivity |].
  unfold select in *. simpl. rewrite Hr. exact IH.
Qed.

Lemma select_app (mask : A -> bool) df1 df2 :
  select mask (df1 ++ df2) = select mask df1 ++ select mask df2.
Proof. unfold select. apply List.filter_app. Qed.

Lemma select_first (mask : A -> bool) df1 r df2 :
  Forall (fun r => mask (snd r) = false) df1 -> mask (snd r) = true ->
  select mask (df1 ++ r :: df2) = r :: select mask df2.
Proof.
  intros H1 Hr. rewrite select_app, (select_nil _ _ H1).
  unfold select. simpl. rewrite Hr. reflexivity.
Qed.
End Frames.

(** ** [idxmin] returns the label of the first minimum *)

Lemma idxmin_from_best (best : Z * float) (s : indexed float) :
  Forall (fun r => (snd best <= snd r)%Q) s -> idxmin_from best s = fst best.
Proof.
  induction 1 as [| r s Hr _ IH]; [reflexivity |].
  simpl. destruct (Qlt_le_dec (snd r) (snd best)) as [Hlt | _]; [| exact IH].
  exfalso. apply (Qlt_not_le _ _ Hlt Hr).
Qed.

Lemma idxmin_from_first_min (pre : indexed float) m post best :
  Forall (fun r => (snd m < snd r)%Q) pre ->
  (snd m < snd best)%Q ->
  Forall (fun r => (snd m <= snd r)%Q) post ->
  idxmin_from best (pre ++ m :: post) = fst m.
Proof.
  intros Hpre. revert best.
  induction Hpre as [| r pre Hr _ IH]; intros best Hbest Hpost; simpl.
  - destruct (Qlt_le_dec (snd m) (snd best)) as [_ | Hle].
    + apply idxmin_from_best, Hpost.
    + exfalso. apply (Qlt_not_le _ _ Hbest Hle).
  - apply IH; [| exact Hpost].
    destruct (Qlt_le_dec (snd r) (snd best)); assumption.
Qed.

Lemma idxmin_first_min (pre : indexed float) m post :
  Forall (fun r => (snd m < snd r)%Q) pre ->
  Forall (fun r => (snd m <= snd r)%Q) post ->
  idxmin (pre ++ m :: post) = Returned (fst m).
Proof.
  intros Hpre Hpost. destruct Hpre as [| r pre Hr Hpre]; simpl.
  - f_equal. apply idxmin_from_best, Hpost.
  - f_equal. apply idxmin_from_first_min; assumption.
Qed.

(** Every non-empty list has a first minimum. *)
Lemma first_min_exists {A} (f : A -> Q) (l : list A) :
  l <> [] ->
  exists pre m post,
    l = pre ++ m :: post
    /\ Forall (fun a => (f m < f a)%Q) pre
    /\ Forall (fun a => (f m <= f a)%Q) post.
Proof.
  induction l as [| a l IH]; [congruence | intros _].
  destruct l as [| a' l'].
  - exists [], a, []. repeat split; constructor.
  - destruct IH as (pre & m & post & E & Hpre & Hpost); [congruence |].
    rewrite E. destruct (Qlt_le_dec (f m) (f a)) as [Hlt | Hle].
    + exists (a :: pre), m, post. repeat split; [constructor |]; assumption.
    + exists [], a, (pre ++ m :: post). repeat split; [constructor |].
      apply Forall_app. split.
      * eapply Forall_impl; [exact Hpre |]. simpl. intros b Hb.
        apply Qlt_le_weak. eapply Qle_lt_trans; eassumption.
      * constructor; [exact Hle |].
        eapply Forall_impl; [exact Hpost |]. simpl. intros b Hb.
        eapply Qle_trans; eassumption.
Qed.

(* ===================================================================== *)
(** * BasinLocator                                                         *)
(* ===================================================================== *)

Section Locator.
Context {G : Type} `{Geometry G}.
Implicit Types (records : list (Basin G)) (b : Basin G).

Definition contains_point (lat lon : float) b : bool :=
  contains (geometry b) (mkPoint lon lat).
Definition distance_to (lat lon : float) b : float :=
  distance (geometry b) (mkPoint lon lat).

Lemma find_basin_contained lat lon pre b post :
  Forall (fun b' => contains_point lat lon b' = false) pre ->
  contains_point lat lon b = true ->
  find_basin_by_coordinates lat lon (load_shapefile (pre ++ b :: post))
  = ([], Returned (BasinName b)).
Proof.
  intros Hpre Hb. unfold find_basin_by_coordinates, load_shapefile.
  destruct (range_index_app pre b post) as (df2 & -> & _).
  rewrite select_first; [reflexivity | | exact Hb].
  eapply Forall_impl; [apply range_index_rows |]. simpl. intros r Hr.
  eapply Forall_forall in Hpre; [exact Hpre | exact Hr].
Qed.

Lemma find_basin_nearest lat lon pre b post :
  Forall (fun b' => contains_point lat lon b' = false) (pre ++ b :: post) ->
  Forall (fun b' => (distance_to lat lon b < distance_to lat lon b')%Q) pre ->
  Forall (fun b' => (distance_to lat lon b <= distance_to lat lon b')%Q) post ->
  find_basin_by_coordinates lat lon (load_shapefile (pre ++ b :: post))
  = ([WarningNearest lat lon (BasinName b) (distance_to lat lon b)],
     Returned (BasinName b)).
Proof.
  intros Hnone Hpre Hpost. unfold find_basin_by_coordinates, load_shapefile.
  rewrite select_nil.
  2:{ eapply Forall_impl; [apply range_index_rows |]. simpl. intros r Hr.
      eapply Forall_forall in Hnone; [exact Hnone | exact Hr]. }
  simpl.
  pose proof (lookup_range_index (pre ++ b :: post) (length pre)) as Hlk.
  rewrite list_lookup_middle in Hlk by reflexivity. simpl in Hlk.
  destruct (range_index_app pre b post) as (df2 & E & Hdf2).
  rewrite E in *. rewrite map_app. simpl map.
  rewrite idxmin_first_min; simpl.
  - rewrite (iloc_lookup _ _ _ Hlk).
    erewrite iloc_lookup.
    2:{ apply list_lookup_middle.
        rewrite length_map, length_range_index. reflexivity. }
    reflexivity.
  - apply Forall_fmap. eapply Forall_impl; [apply range_index_rows |].
    simpl. intros r Hr. eapply Forall_forall in Hpre; [exact Hpre | exact Hr].
  - apply Forall_fmap. eapply Forall_impl; [exact Hdf2 |].
    simpl. intros r Hr. eapply Forall_forall in Hpost; [exact Hpost | exact Hr].
Qed.

Lemma find_basin_empty lat lon :
  find_basin_by_coordinates lat lon (load_shapefile (@nil (Basin G)))
  = ([], Raised (ValueError (py "attempt to get argmin of an empty sequence"))).
Proof. reflexivity. Qed.
End Locator.

(* ===================================================================== *)
(** * DiversityAggregator                                                  *)
(* ===================================================================== *)

Section Unique.
Context {A : Type} `{Countable A}.
Implicit Types (l seen : list A).

Lemma elem_of_unique_from seen l a :
  a ∈ unique_from seen l <-> a ∈ l /\ a ∉ seen.
Proof.
  revert seen. induction l as [| b l IH]; intros seen; simpl.
  - split; [intros Hin | intros [Hin _]]; inversion Hin.
  - destruct (decide (b ∈ seen)) as [Hb | Hb].
    + rewrite IH, elem_of_cons. split; [tauto |].
      intros [[-> | Hin] Hseen]; [contradiction | tauto].
    + rewrite !elem_of_cons, IH, elem_of_cons.
      destruct (decide (a = b)) as [-> | Hne]; tauto.
Qed.

Lemma NoDup_unique_from seen l : NoDup (unique_from seen l).
Proof.
  revert seen. induction l as [| b l IH]; intros seen; simpl.
  - constructor.
  - destruct (decide (b ∈ seen)); [apply IH |].
    constructor; [| apply IH].
    rewrite elem_of_unique_from, elem_of_cons. tauto.
Qed.

Lemma elem_of_unique l a : a ∈ unique l <-> a ∈ l.
Proof.
  unfold unique. rewrite elem_of_unique_from.
  split; [tauto | intros Hin; split; [exact Hin | apply not_elem_of_nil]].
Qed.

(** [nunique] counts the set of the values that are present. *)
Lemma nunique_size (col : list (option A)) :
  nunique col = size (list_to_set (dropna col) : gset A).
Proof.
  unfold nunique.
  rewrite <- (size_list_to_set (C := gset A) (unique (dropna col)))
    by apply NoDup_unique_from.
  f_equal. apply set_eq. intros a.
  rewrite !elem_of_list_to_set. apply elem_of_unique.
Qed.
End Unique.

Lemma elem_of_select {A} (mask : A -> bool) (df : list (Z * A)) r :
  r ∈ select mask df <-> r ∈ df /\ mask (snd r) = true.
Proof. unfold select. rewrite !list_elem_of_In. apply filter_In. Qed.

Lemma elem_of_range_index_rows {A} (rows : list A) (row : A) :
  row ∈ rows <-> exists r, r ∈ range_index rows /\ snd r = row.
Proof.
  split.
  - intros Hin. apply list_elem_of_lookup in Hin as [i Hi].
    exists (Z.of_nat i, row). split; [| reflexivity].
    apply list_elem_of_lookup. exists i.
    rewrite lookup_range_index, Hi. reflexivity.
  - intros (r & Hr & <-).
    pose proof (range_index_rows rows) as Hall.
    eapply Forall_forall in Hall; [exact Hall | exact Hr].
Qed.

(** The species names present in a selection of the occurrence rows. *)
Lemma elem_of_species (df : list (Z * Occurrence)) (s : string) :
  s ∈ (list_to_set (dropna (species_column df)) : gset string)
  <-> exists r, r ∈ df /\ Fishbase_Valid_Species_Name (snd r) = Some s.
Proof.
  rewrite elem_of_list_to_set. unfold dropna, species_column.
  rewrite list_elem_of_omap. split.
  - intros (o & Ho & E). apply list_elem_of_fmap in Ho as (r & -> & Hr).
    exists r. split; [exact Hr | exact E].
  - intros (r & Hr & E). exists (Some s). split; [| reflexivity].
    apply list_elem_of_fmap. exists r. split; [symmetry; exact E | exact Hr].
Qed.

Lemma eq_str_true cell value : eq_str cell value = true <-> cell = Some value.
Proof. unfold eq_str. apply bool_decide_eq_true. Qed.

(** The counts, whichever branch computes them. *)
Lemma diversity_counts basin_name (occ_df : list (Z * Occurrence)) :
  let basin_fish := select (fun r => eq_str (Basin_Name r) basin_name) occ_df in
  let with_status st := select (fun r => eq_str (Native_Exotic_Status r) st) basin_fish in
  let d := get_basin_fish_diversity basin_name occ_df in
  species_count d = nunique (species_column basin_fish)
  /\ native_species_count d = nunique (species_column (with_status "native"))
  /\ exotic_species_count d = nunique (species_column (with_status "exotic"))
  /\ species_list d = unique (species_column basin_fish).
Proof.
  intros basin_fish with_status d. subst d with_status.
  unfold get_basin_fish_diversity. fold basin_fish.
  destruct basin_fish as [| r rest]; simpl; auto.
Qed.

(* ===================================================================== *)
(** * PairwiseMetrics and the loop of [main]                               *)
(* ===================================================================== *)


Section Jaccard.
Context `{Rounding}.

Lemma RN_bounds (x : Q) :
  (x - Qabs x * unit_roundoff <= RN x <= x + Qabs x * unit_roundoff)%Q.
Proof.
  pose proof (RN_error x) as E. apply Qabs_Qle_condition in E.
  set (e := (Qabs x * unit_roundoff)%Q) in *.
  destruct E. split; lra.
Qed.



End Jaccard.

Section MainLoop.
Context `{Rounding} {G : Type} `{Geometry G}.
Variable basins_gdf : list (Z * Basin G).
Variable occ_df : list (Z * Occurrence).



End MainLoop.

(* ===================================================================== *)
(** * The matcher against the declarative reading of a pattern             *)
(* ===================================================================== *)

Section AtomLemmas.
Variable ok : codepoint -> bool.
Variable k : str -> option (list str * str).

Lemma skip_sound s r :
  skip k s = Some r ->
  exists segs rest, r = ([] :: segs, rest) /\ k s = Some (segs, rest).
Proof.
  unfold skip, open_seg. destruct (k s) as [[segs rest] |]; [| discriminate].
  intros [= <-]. eauto.
Qed.

Lemma cons_seg_Some c x r :
  cons_seg c x = Some r ->
  exists seg segs rest, x = Some (seg :: segs, rest) /\ r = ((c :: seg) :: segs, rest).
Proof.
  destruct x as [[[| seg segs] rest] |]; simpl; try discriminate.
  intros [= <-]. eauto 6.
Qed.

Lemma star_sound s r :
  star ok k s = Some r ->
  exists seg segs rest s',
    r = (seg :: segs, rest) /\ all_in ok seg /\ s = seg ++ s'
    /\ k s' = Some (segs, rest).
Proof.
  revert r. induction s as [| c s IH]; intros r; simpl.
  - intros Hr. apply skip_sound in Hr as (segs & rest & -> & Hk).
    exists [], segs, rest, []. repeat split; [constructor | exact Hk].
  - assert (Hskip : skip k (c :: s) = Some r ->
                    exists seg segs rest s',
                      r = (seg :: segs, rest) /\ all_in ok seg
                      /\ c :: s = seg ++ s' /\ k s' = Some (segs, rest)).
    { intros Hr. apply skip_sound in Hr as (segs & rest & -> & Hk).
      exists [], segs, rest, (c :: s). repeat split; [constructor | exact Hk]. }
    destruct (ok c) eqn:Hc; [| exact Hskip].
    destruct (cons_seg c (star ok k s)) as [r' |] eqn:E; [| exact Hskip].
    intros [= <-].
    apply cons_seg_Some in E as (seg & segs & rest & E & ->).
    apply IH in E as (seg' & segs' & rest' & s' & [= -> -> ->] & Hall & -> & Hk).
    exists (c :: seg'), segs', rest', s'.
    repeat split; [constructor; assumption | exact Hk].
Qed.

Lemma star_skip s x : k s = Some x -> is_Some (star ok k s).
Proof.
  intros Hk.
  assert (Hskip : is_Some (skip k s)).
  { unfold skip. rewrite Hk. destruct x. simpl. eauto. }
  destruct s as [| c s]; simpl; [exact Hskip |].
  destruct (ok c); [| exact Hskip].
  destruct (cons_seg c (star ok k s)); [eauto | exact Hskip].
Qed.

Lemma star_complete seg s' x :
  all_in ok seg -> k s' = Some x -> is_Some (star ok k (seg ++ s')).
Proof.
  intros Hall Hk. induction Hall as [| c seg Hc _ IH]; simpl.
  - eapply star_skip, Hk.
  - rewrite Hc. destruct IH as [r Hr]. rewrite Hr.
    apply star_sound in Hr as (seg' & segs & rest & _ & -> & _).
    simpl. eauto.
Qed.

Lemma one_skip_sound s r :
  one ok (skip k) s = Some r ->
  exists seg segs rest s',
    r = (seg :: segs, rest) /\ s = seg ++ s' /\ k s' = Some (segs, rest)
    /\ all_in ok seg /\ length seg = 1%nat.
Proof.
  unfold one. destruct s as [| c s']; [discriminate |].
  destruct (ok c) eqn:Hc; [| discriminate].
  intros E. apply cons_seg_Some in E as (seg & segs & rest & E & ->).
  apply skip_sound in E as (segs' & rest' & [= -> -> ->] & Hk).
  exists [c], segs', rest', s'.
  repeat split; [exact Hk | repeat constructor; exact Hc].
Qed.

Lemma match_atom_sound q s r :
  match_atom ok k q s = Some r ->
  exists seg segs rest s',
    r = (seg :: segs, rest) /\ s = seg ++ s' /\ k s' = Some (segs, rest)
    /\ seg_ok (Atom ok q 0) seg.
Proof.
  unfold seg_ok. destruct q; simpl.
  - intros E. apply one_skip_sound in E as (seg & segs & rest & s' & ? & ? & ? & ? & ?).
    eauto 10.
  - destruct (one ok (skip k) s) as [r' |] eqn:E.
    + intros [= <-].
      apply one_skip_sound in E as (seg & segs & rest & s' & ? & ? & ? & ? & ?).
      exists seg, segs, rest, s'. repeat split; try assumption. lia.
    + intros E'. apply skip_sound in E' as (segs & rest & -> & Hk).
      exists [], segs, rest, s. repeat split; [exact Hk | constructor | simpl; lia].
  - intros E. apply star_sound in E as (seg & segs & rest & s' & ? & ? & ? & ?).
    eauto 10.
  - unfold one. destruct s as [| c s0]; [discriminate |].
    destruct (ok c) eqn:Hc; [| discriminate].
    intros E. apply cons_seg_Some in E as (seg & segs & rest & E & ->).
    apply star_sound in E as (seg' & segs' & rest' & s' & [= -> -> ->] & Hall & -> & Hk).
    exists (c :: seg'), segs', rest', s'.
    repeat split; [exact Hk | constructor; assumption | simpl; lia].
Qed.

Lemma match_atom_complete q seg s' x :
  seg_ok (Atom ok q 0) seg -> k s' = Some x ->
  is_Some (match_atom ok k q (seg ++ s')).
Proof.
  intros [Hall Hq] Hk. simpl in *.
  assert (Hskip : is_Some (skip k s')).
  { unfold skip. rewrite Hk. destruct x. simpl. eauto. }
  assert (Hone : forall c, ok c = true -> is_Some (one ok (skip k) (c :: s'))).
  { intros c Hc. simpl. rewrite Hc. destruct Hskip as [r Hr]. rewrite Hr.
    apply skip_sound in Hr as (segs & rest & -> & _). simpl. eauto. }
  destruct q; simpl.
  - destruct seg as [| c [| c' seg]]; try discriminate.
    apply Hone. inversion Hall; assumption.
  - destruct seg as [| c [| c' seg]]; simpl in Hq; [| | lia].
    + simpl. destruct (one ok (skip k) s'); [eauto | exact Hskip].
    + destruct (Hone c) as [r Hr]; [inversion Hall; assumption |].
      simpl in Hr |- *. rewrite Hr. eauto.
  - eapply star_complete; eassumption.
  - destruct seg as [| c seg]; simpl in Hq; [lia |].
    inversion Hall as [| ? ? Hc Hseg]; subst. simpl. rewrite Hc.
    destruct (star_complete seg s' x Hseg Hk) as [r Hr]. rewrite Hr.
    apply star_sound in Hr as (seg' & segs & rest & _ & -> & _).
    simpl. eauto.
Qed.
End AtomLemmas.

Lemma seg_ok_group (ok : codepoint -> bool) q g seg :
  seg_ok (Atom ok q g) seg <-> seg_ok (Atom ok q 0) seg.
Proof. reflexivity. Qed.

Lemma match_here_sound p s segs rest :
  match_here p s = Some (segs, rest) -> Matches p s segs rest.
Proof.
  revert s segs rest. induction p as [| a p IH]; intros s segs rest; simpl.
  - intros [= <- <-]. split; [constructor | reflexivity].
  - intros E.
    apply match_atom_sound in E as (seg & segs' & rest' & s' & [= -> ->] & -> & Hk & Hseg).
    apply IH in Hk as [Hall ->]. split.
    + constructor; [destruct a; exact Hseg | exact Hall].
    + simpl. rewrite app_assoc. reflexivity.
Qed.

Lemma match_here_complete p s segs rest :
  Matches p s segs rest -> is_Some (match_here p s).
Proof.
  intros [Hall ->]. revert rest.
  induction Hall as [| a seg p segs Hseg _ IH]; intros rest; simpl.
  - eauto.
  - destruct (IH rest) as [x Hx]. rewrite <- app_assoc.
    eapply match_atom_complete; [destruct a; exact Hseg | exact Hx].
Qed.

(** ** [re.search]: the leftmost start position that matches *)

(** No match of [p] starts inside [pre] when [w] follows. *)
Definition dead (p : pattern) (pre w : str) : Prop :=
  forall a b, pre = a ++ b -> b <> [] -> match_here p (b ++ w) = None.

Lemma dead_nil p w : dead p [] w.
Proof.
  intros a b E Hb. symmetry in E. apply app_eq_nil in E as [_ ->]. congruence.
Qed.

Lemma dead_app p r1 r2 w :
  dead p r1 (r2 ++ w) -> dead p r2 w -> dead p (r1 ++ r2) w.
Proof.
  intros H1 H2 a b E Hb. symmetry in E.
  apply app_eq_inv in E as [(z & E1 & E2) | (z & E1 & E2)].
  - apply (H2 z b E2 Hb).
  - subst b. destruct z as [| c z].
    + simpl. apply (H2 [] r2); [reflexivity | exact Hb].
    + rewrite <- app_assoc. apply (H1 a (c :: z)); [exact E1 | discriminate].
Qed.

Lemma search_from_skip p pos pre w :
  dead p pre w ->
  search_from p pos (pre ++ w) = search_from p (pos + length pre) w.
Proof.
  revert pos. induction pre as [| c pre IH]; intros pos Hdead.
  - simpl. rewrite Nat.add_0_r. reflexivity.
  - pose proof (Hdead [] (c :: pre) eq_refl ltac:(discriminate)) as E.
    simpl in E |- *. rewrite E, IH.
    + f_equal. lia.
    + intros a b Eab Hb. apply (Hdead (c :: a) b); [rewrite Eab; reflexivity | exact Hb].
Qed.

Lemma search_from_here p pos s segs rest :
  match_here p s = Some (segs, rest) ->
  search_from p pos s = Some (mkMatch p pos segs).
Proof. intros E. destruct s; simpl; rewrite E; reflexivity. Qed.

Lemma search_from_sound p pos s m :
  search_from p pos s = Some m ->
  exists pre w segs rest,
    s = pre ++ w /\ dead p pre w
    /\ match_here p w = Some (segs, rest)
    /\ m = mkMatch p (pos + length pre) segs.
Proof.
  revert pos. induction s as [| c s IH]; intros pos; simpl.
  - destruct (match_here p []) as [[segs rest] |] eqn:E; [| discriminate].
    intros [= <-]. exists [], [], segs, rest.
    repeat split; [apply dead_nil | exact E | f_equal; simpl; lia].
  - destruct (match_here p (c :: s)) as [[segs rest] |] eqn:E.
    + intros [= <-]. exists [], (c :: s), segs, rest.
      repeat split; [apply dead_nil | exact E | f_equal; simpl; lia].
    + intros Hm. apply IH in Hm as (pre & w & segs & rest & -> & Hdead & Hw & ->).
      exists (c :: pre), w, segs, rest. repeat split; [| exact Hw | f_equal; simpl; lia].
      intros a b Eab Hb. destruct a as [| c' a]; simpl in Eab.
      * subst b. exact E.
      * injection Eab as -> ->. apply (Hdead a b); [reflexivity | exact Hb].
Qed.

Lemma search_from_complete p pos pre w :
  is_Some (match_here p w) -> is_Some (search_from p pos (pre ++ w)).
Proof.
  intros [[segs rest] Hw]. revert pos.
  induction pre as [| c pre IH]; intros pos.
  - simpl. destruct w; simpl; rewrite Hw; eauto.
  - simpl. destruct (match_here p (c :: pre ++ w)) as [[segs' rest'] |]; eauto.
Qed.

(* ===================================================================== *)
(** * The character classes of the two patterns                            *)
(* ===================================================================== *)

Lemma is_space_elem c : Py_UNICODE_ISSPACE c = true -> In c whitespace.
Proof.
  unfold Py_UNICODE_ISSPACE. intros E.
  apply existsb_exists in E as (x & Hin & Hx).
  apply N.eqb_eq in Hx. subst x. exact Hin.
Qed.

Lemma digit_not_blank c :
  Py_UNICODE_ISDECIMAL c = true -> Py_UNICODE_ISSPACE c = false.
Proof.
  intros Hd. destruct (Py_UNICODE_ISSPACE c) eqn:Hs; [| reflexivity].
  apply is_space_elem in Hs. unfold whitespace in Hs. simpl in Hs.
  repeat (destruct Hs as [<- | Hs]; [vm_compute in Hd; discriminate |]).
  contradiction.
Qed.

Lemma digit_not_stop c : Py_UNICODE_ISDECIMAL c = true -> c <> FULL_STOP.
Proof. intros Hd ->. vm_compute in Hd. discriminate. Qed.

Lemma digit_not_degree c : Py_UNICODE_ISDECIMAL c = true -> c <> DEGREE_SIGN.
Proof. intros Hd ->. vm_compute in Hd. discriminate. Qed.

Lemma blank_not_degree c : Py_UNICODE_ISSPACE c = true -> c <> DEGREE_SIGN.
Proof. intros Hd ->. vm_compute in Hd. discriminate. Qed.

Lemma is_char_true c x : is_char c x = true <-> x = c.
Proof. unfold is_char. rewrite N.eqb_eq. split; congruence. Qed.

Lemma one_of_true cs c : one_of cs c = true <-> c ∈ cs.
Proof.
  unfold one_of. rewrite list_elem_of_In, existsb_exists. split.
  - intros (x & Hin & Hx). apply N.eqb_eq in Hx. subst x. exact Hin.
  - intros Hin. exists c. split; [exact Hin | apply N.eqb_refl].
Qed.

(** The characters of a magnitude: digits and the full stop. *)
Definition mag_char (c : codepoint) : bool :=
  Py_UNICODE_ISDECIMAL c || (c =? FULL_STOP).

Lemma mag_char_not_blank c : mag_char c = true -> Py_UNICODE_ISSPACE c = false.
Proof.
  unfold mag_char. intros E. apply orb_true_iff in E as [E | E].
  - apply digit_not_blank, E.
  - apply N.eqb_eq in E. subst c. reflexivity.
Qed.

Lemma mag_char_not_degree c : mag_char c = true -> c <> DEGREE_SIGN.
Proof.
  unfold mag_char. intros E. apply orb_true_iff in E as [E | E].
  - apply digit_not_degree, E.
  - apply N.eqb_eq in E. subst c. discriminate.
Qed.

Lemma digits_mag_chars s : digits s -> all_in mag_char s.
Proof.
  intros Hs. eapply Forall_impl; [exact Hs |].
  intros c Hc. unfold mag_char. simpl in Hc. rewrite Hc. reflexivity.
Qed.

Lemma magnitude_chars num : magnitude num -> all_in mag_char num.
Proof.
  intros (ip & dot & fp & -> & _ & Hip & Hdot & Hfp).
  unfold all_in. rewrite !Forall_app. repeat split.
  - apply digits_mag_chars, Hip.
  - destruct Hdot as [-> | ->]; repeat constructor.
  - apply digits_mag_chars, Hfp.
Qed.

Lemma magnitude_head num :
  magnitude num -> exists d num', num = d :: num' /\ Py_UNICODE_ISDECIMAL d = true.
Proof.
  intros (ip & dot & fp & -> & Hne & Hip & _).
  destruct ip as [| d ip]; [congruence |].
  inversion Hip; subst. simpl. eauto.
Qed.

Lemma all_in_not_elem (ok : codepoint -> bool) s c :
  all_in ok s -> ok c = false -> c ∉ s.
Proof.
  intros Hall Hc Hin. eapply Forall_forall in Hall; [| exact Hin]. congruence.
Qed.

Lemma magnitude_no_degree num : magnitude num -> DEGREE_SIGN ∉ num.
Proof. intros Hm. eapply all_in_not_elem; [apply magnitude_chars, Hm | reflexivity]. Qed.

Lemma blanks_no_degree ws : blanks ws -> DEGREE_SIGN ∉ ws.
Proof. intros Hb. eapply all_in_not_elem; [exact Hb | reflexivity]. Qed.

(** ** Two ways to cut a text *)

(** A text cut where a class of characters begins is cut in one way. *)
Lemma boundary_unique (ok : codepoint -> bool) (a a' b b' : str) :
  Forall (fun c => ok c = false) a -> Forall (fun c => ok c = false) a' ->
  all_in ok b -> all_in ok b' ->
  a ++ b = a' ++ b' -> a = a' /\ b = b'.
Proof.
  intros Ha. revert a'. induction Ha as [| c a Hc _ IH]; intros a' Ha' Hb Hb' E.
  - destruct Ha' as [| c' a' Hc' _]; [auto |].
    simpl in E. subst b. inversion Hb; congruence.
  - destruct Ha' as [| c' a' Hc' Ha'].
    + simpl in E. subst b'. inversion Hb'; congruence.
    + simpl in E. injection E as -> E.
      destruct (IH a' Ha' Hb Hb' E) as [-> ->]. auto.
Qed.

(** A character outside a class lies behind every prefix inside the class. *)
Lemma prefix_in_class (ok : codepoint -> bool) (a b t r : str) c :
  all_in ok a -> ok c = false -> a ++ b = t ++ c :: r ->
  exists y, b = y ++ c :: r.
Proof.
  intros Ha Hc. revert t. induction Ha as [| x a Hx _ IH]; intros t E.
  - exists t. exact E.
  - destruct t as [| x' t]; simpl in E; injection E as -> E.
    + congruence.
    + apply (IH t E).
Qed.

(* ===================================================================== *)
(** * Matches of a hemisphere pattern are tokens                           *)
(* ===================================================================== *)

Lemma token_app num ws letter post :
  token num ws letter ++ post = (num ++ ws) ++ DEGREE_SIGN :: letter :: post.
Proof. unfold token. rewrite <- !app_assoc. reflexivity. Qed.

Section Hemisphere.
Variable letters : list codepoint.
Let pat := hemisphere_pattern letters.

Lemma Matches_token w segs rest :
  Matches pat w segs rest ->
  exists num ws letter,
    magnitude num /\ blanks ws /\ letter ∈ letters
    /\ w = token num ws letter ++ rest
    /\ group_text 1 pat segs = num
    /\ group_text 2 pat segs = [letter].
Proof.
  intros [Hall ->]. subst pat. unfold hemisphere_pattern in *.
  repeat match goal with
         | H : Forall2 _ (_ :: _) _ |- _ => inversion H; clear H; subst
         | H : Forall2 _ [] _ |- _ => inversion H; clear H; subst
         end.
  repeat match goal with
         | H : seg_ok _ _ |- _ => destruct H as [? ?]
         end.
  simpl in *.
  match goal with
  | H1 : all_in Py_UNICODE_ISDECIMAL ?d1, H2 : all_in (is_char FULL_STOP) ?dot,
    H3 : all_in Py_UNICODE_ISDECIMAL ?d2, H4 : all_in Py_UNICODE_ISSPACE ?ws,
    H5 : all_in (is_char DEGREE_SIGN) ?dg, H6 : all_in (one_of letters) ?lt |- _ =>
      rename d1 into ip; rename dot into stop; rename d2 into fp; rename ws into bl;
      rename dg into deg; rename lt into ltr
  end.
  destruct deg as [| dg [| ? ?]]; try discriminate.
  destruct ltr as [| l [| ? ?]]; try discriminate.
  repeat match goal with
         | H : all_in _ [_] |- _ => inversion H; clear H; subst
         end.
  repeat match goal with
         | H : is_char _ _ = true |- _ => apply is_char_true in H; subst
         | H : one_of _ _ = true |- _ => apply one_of_true in H
         end.
  exists (ip ++ stop ++ fp), bl, l. repeat split.
  - exists ip, stop, fp. repeat split; try assumption.
    + destruct ip; simpl in *; [lia | discriminate].
    + destruct stop as [| c [| ? ?]]; simpl in *; [auto | | lia].
      right. match goal with H : all_in _ [c] |- _ => inversion H; subst end.
      match goal with H : is_char _ c = true |- _ => apply is_char_true in H; subst end.
      reflexivity.
  - assumption.
  - assumption.
  - unfold token. simpl. rewrite ?app_nil_r, <- ?app_assoc. reflexivity.
  - rewrite ?app_nil_r. reflexivity.
Qed.

Lemma token_Matches num ws letter post :
  magnitude num -> blanks ws -> letter ∈ letters ->
  exists segs, Matches pat (token num ws letter ++ post) segs post.
Proof.
  intros (ip & dot & fp & -> & Hne & Hip & Hdot & Hfp) Hws Hl.
  exists [ip; dot; fp; ws; [DEGREE_SIGN]; [letter]]. split.
  - subst pat. unfold hemisphere_pattern.
    constructor.
    { split; [exact Hip | simpl].
      destruct ip; [congruence | simpl; apply le_n_S, Nat.le_0_l]. }
    constructor.
    { destruct Hdot as [-> | ->]; split; simpl; repeat constructor. }
    constructor; [split; [exact Hfp | exact I] |].
    constructor; [split; [exact Hws | exact I] |].
    constructor; [split; [repeat constructor | reflexivity] |].
    constructor; [split; [| reflexivity] | constructor].
    constructor; [apply one_of_true, Hl | constructor].
  - unfold token. simpl. rewrite ?app_nil_r, <- ?app_assoc. reflexivity.
Qed.

(** A text starts with at most one token. *)
Lemma token_unique num ws letter post num' ws' letter' post' :
  magnitude num -> blanks ws -> magnitude num' -> blanks ws' ->
  token num ws letter ++ post = token num' ws' letter' ++ post' ->
  num = num' /\ ws = ws' /\ letter = letter' /\ post = post'.
Proof.
  intros Hn Hw Hn' Hw' E. unfold token in E.
  rewrite <- !app_assoc in E. simpl in E.
  rewrite !(app_assoc _ _ (DEGREE_SIGN :: _)) in E.
  apply not_elem_of_app_cons_inv_l in E as (E & _ & [= -> ->]).
  - destruct (boundary_unique Py_UNICODE_ISSPACE num num' ws ws') as [-> ->];
      try assumption; auto.
    + eapply Forall_impl; [apply magnitude_chars, Hn |]. apply mag_char_not_blank.
    + eapply Forall_impl; [apply magnitude_chars, Hn' |]. apply mag_char_not_blank.
  - rewrite elem_of_app. intros [Hin | Hin].
    + apply (magnitude_no_degree _ Hn' Hin).
    + apply (blanks_no_degree _ Hw' Hin).
  - rewrite elem_of_app. intros [Hin | Hin].
    + apply (magnitude_no_degree _ Hn Hin).
    + apply (blanks_no_degree _ Hw Hin).
Qed.

(** At a token the matcher captures its magnitude and its letter. *)
Lemma match_here_token num ws letter post :
  magnitude num -> blanks ws -> letter ∈ letters ->
  exists segs,
    match_here pat (token num ws letter ++ post) = Some (segs, post)
    /\ group_text 1 pat segs = num
    /\ group_text 2 pat segs = [letter].
Proof.
  intros Hn Hw Hl.
  destruct (token_Matches num ws letter post Hn Hw Hl) as [segs0 HM].
  apply match_here_complete in HM as [[segs rest] E].
  pose proof (match_here_sound _ _ _ _ E) as HM.
  apply Matches_token in HM as (num' & ws' & l' & Hn' & Hw' & Hl' & Ew & G1 & G2).
  apply token_unique in Ew as (-> & -> & -> & ->); try assumption.
  exists segs. auto.
Qed.

(** Where no token starts the matcher fails. *)
Lemma match_here_None w :
  (forall num ws letter rest,
      magnitude num -> blanks ws -> letter ∈ letters ->
      w <> token num ws letter ++ rest) ->
  match_here pat w = None.
Proof.
  intros Hno. destruct (match_here pat w) as [[segs rest] |] eqn:E; [| reflexivity].
  apply match_here_sound, Matches_token in E
    as (num & ws & l & Hn & Hw & Hl & Ew & _).
  exfalso. eapply Hno; eassumption.
Qed.

Lemma match_here_nondigit c s :
  Py_UNICODE_ISDECIMAL c = false -> match_here pat (c :: s) = None.
Proof. intros Hc. simpl. rewrite Hc. reflexivity. Qed.

(** A wrong letter after the first degree sign. *)
Lemma match_here_wrong_letter u letter rest :
  DEGREE_SIGN ∉ u -> letter ∉ letters ->
  match_here pat (u ++ DEGREE_SIGN :: letter :: rest) = None.
Proof.
  intros Hu Hl. apply match_here_None.
  intros num ws l rest' Hn Hw Hin E. unfold token in E.
  rewrite <- !app_assoc in E. simpl in E.
  rewrite !(app_assoc _ _ (DEGREE_SIGN :: _)) in E.
  apply not_elem_of_app_cons_inv_l in E as (_ & _ & [= -> _]); [contradiction | | exact Hu].
  rewrite elem_of_app. intros [H | H].
  - apply (magnitude_no_degree _ Hn H).
  - apply (blanks_no_degree _ Hw H).
Qed.

(** Text that ends outside a magnitude, right before a token. *)
Lemma match_here_broken b c num ws letter post :
  DEGREE_SIGN ∉ (b ++ [c]) -> mag_char c = false ->
  magnitude num -> blanks ws ->
  match_here pat ((b ++ [c]) ++ token num ws letter ++ post) = None.
Proof.
  intros Hb Hc Hn Hw. apply match_here_None.
  intros num' ws' l' rest' Hn' Hw' _ E.
  rewrite !token_app, app_assoc in E.
  apply not_elem_of_app_cons_inv_l in E as (E & _ & _).
  - rewrite <- !app_assoc in E. simpl in E. symmetry in E.
    apply (prefix_in_class mag_char) in E as [y Ey];
      [| apply magnitude_chars, Hn' | exact Hc].
    destruct (magnitude_head _ Hn) as (d & num0 & -> & Hd).
    assert (Hin : d ∈ ws').
    { rewrite Ey. rewrite elem_of_app. right. simpl.
      apply elem_of_cons. right. apply elem_of_cons. left. reflexivity. }
    eapply Forall_forall in Hw'; [| exact Hin].
    apply digit_not_blank in Hd. congruence.
  - rewrite elem_of_app. intros [H | H].
    + apply (magnitude_no_degree _ Hn' H).
    + apply (blanks_no_degree _ Hw' H).
  - rewrite elem_of_app. intros [H | H]; [apply Hb, H |].
    apply elem_of_app in H as [H | H].
    + apply (magnitude_no_degree _ Hn H).
    + apply (blanks_no_degree _ Hw H).
Qed.
End Hemisphere.

(* ===================================================================== *)
(** * Searching a coordinate string                                        *)
(* ===================================================================== *)

Lemma free_text_suffix t a b :
  free_text t = true -> t = a ++ b -> b <> [] ->
  exists b' c, b = b' ++ [c] /\ (DEGREE_SIGN ∉ b' ++ [c]) /\ mag_char c = false.
Proof.
  unfold free_text. intros Hfree -> Hb.
  apply andb_true_iff in Hfree as [Hdeg Hlast].
  destruct (last b) as [c |] eqn:El.
  - apply last_Some in El as [b' ->]. exists b', c. repeat split.
    + intros Hin. rewrite forallb_forall in Hdeg.
      specialize (Hdeg DEGREE_SIGN). rewrite <- list_elem_of_In in Hdeg.
      rewrite elem_of_app in Hdeg. specialize (Hdeg (or_intror Hin)).
      discriminate.
    + rewrite app_assoc, last_snoc in Hlast.
      apply andb_true_iff in Hlast as [Hd Hs].
      unfold mag_char. apply negb_true_iff in Hd, Hs. rewrite Hd, Hs. reflexivity.
  - apply last_None in El. contradiction.
Qed.

Section Search.
Variable letters : list codepoint.
Let pat := hemisphere_pattern letters.

(** Free text before a token holds no start of a match. *)
Lemma dead_free_text t num ws letter post :
  free_text t = true -> magnitude num -> blanks ws ->
  dead pat t (token num ws letter ++ post).
Proof.
  intros Hfree Hn Hw a b E Hb.
  destruct (free_text_suffix t a b Hfree E Hb) as (b' & c & -> & Hdeg & Hc).
  apply match_here_broken; assumption.
Qed.

(** Nor does a token of the other kind. *)
Lemma dead_other_token num ws letter post :
  magnitude num -> blanks ws ->
  letter ∉ letters -> Py_UNICODE_ISDECIMAL letter = false ->
  dead pat (token num ws letter) post.
Proof.
  intros Hn Hw Hl Hd a b E Hb. symmetry in E. unfold token in E.
  rewrite app_assoc in E.
  apply app_eq_inv in E as [(z & E1 & E2) | (z & E1 & E2)].
  - destruct z as [| c1 [| c2 [| c3 z]]]; simpl in E2.
    + subst b. apply (match_here_wrong_letter letters [] letter post); [| exact Hl].
      apply not_elem_of_nil.
    + injection E2 as _ <-. apply match_here_nondigit, Hd.
    + injection E2 as _ _ <-. congruence.
    + discriminate.
  - subst b. rewrite <- app_assoc. simpl.
    apply match_here_wrong_letter; [| exact Hl].
    intros Hin.
    assert (Hin' : DEGREE_SIGN ∈ num ++ ws) by (rewrite E1, elem_of_app; auto).
    apply elem_of_app in Hin' as [H | H].
    + apply (magnitude_no_degree _ Hn H).
    + apply (blanks_no_degree _ Hw H).
Qed.

(** The search returns the first token that no earlier start shadows. *)
Lemma search_token pre num ws letter post :
  dead pat pre (token num ws letter ++ post) ->
  magnitude num -> blanks ws -> letter ∈ letters ->
  exists m,
    re_search pat (pre ++ token num ws letter ++ post) = Some m
    /\ group m 1 = num /\ group m 2 = [letter].
Proof.
  intros Hdead Hn Hw Hl. unfold re_search.
  rewrite search_from_skip by exact Hdead.
  destruct (match_here_token letters num ws letter post Hn Hw Hl)
    as (segs & E & G1 & G2).
  rewrite (search_from_here _ _ _ _ _ E). eexists. split; [reflexivity |].
  unfold group. simpl m_pattern. simpl m_segs. auto.
Qed.

Lemma re_search_Some s m :
  re_search pat s = Some m ->
  exists pre num ws letter post,
    s = pre ++ token num ws letter ++ post
    /\ magnitude num /\ blanks ws /\ letter ∈ letters
    /\ group m 1 = num /\ group m 2 = [letter].
Proof.
  intros E. apply search_from_sound in E
    as (pre & w & segs & rest & -> & _ & Hw & ->).
  apply match_here_sound, Matches_token in Hw
    as (num & ws & l & Hn & Hws & Hl & -> & G1 & G2).
  exists pre, num, ws, l, rest. repeat split; assumption.
Qed.

Lemma re_search_None s : re_search pat s = None <-> ~ has_token letters s.
Proof.
  split.
  - intros E (pre & num & ws & l & post & Hn & Hw & Hl & ->).
    destruct (token_Matches letters num ws l post Hn Hw Hl) as [segs HM].
    apply match_here_complete in HM.
    apply (search_from_complete _ 0 pre) in HM as [m Hm].
    unfold re_search, pat in E. rewrite Hm in E. discriminate.
  - intros Hno. destruct (re_search pat s) as [m |] eqn:E; [| reflexivity].
    apply re_search_Some in E as (pre & num & ws & l & post & -> & Hn & Hw & Hl & _).
    exfalso. apply Hno. exists pre, num, ws, l, post. auto.
Qed.
End Search.

(* ===================================================================== *)
(** * [float] of a magnitude                                               *)
(* ===================================================================== *)

Lemma split_at_stop_none s : FULL_STOP ∉ s -> split_at_stop s = (s, None).
Proof.
  induction s as [| c s IH]; intros Hs; simpl; [reflexivity |].
  apply not_elem_of_cons in Hs as [Hc Hs].
  destruct (N.eqb_spec c FULL_STOP) as [-> | _]; [congruence |].
  rewrite (IH Hs). reflexivity.
Qed.

Lemma split_at_stop_some ip fp :
  FULL_STOP ∉ ip -> split_at_stop (ip ++ FULL_STOP :: fp) = (ip, Some fp).
Proof.
  induction ip as [| c ip IH]; intros Hs; simpl; [reflexivity |].
  apply not_elem_of_cons in Hs as [Hc Hs].
  destruct (N.eqb_spec c FULL_STOP) as [-> | _]; [congruence |].
  rewrite (IH Hs). reflexivity.
Qed.

Lemma digits_no_stop s : digits s -> FULL_STOP ∉ s.
Proof. intros Hs. eapply all_in_not_elem; [exact Hs | reflexivity]. Qed.

Lemma digits_value_Some s acc : digits s -> exists v, digits_value acc s = Some v.
Proof.
  intros Hs. revert acc. induction Hs as [| c s Hc _ IH]; intros acc; simpl.
  - eauto.
  - unfold Py_UNICODE_ISDECIMAL in Hc.
    destruct (Py_UNICODE_TODECIMAL c) as [d |]; [apply IH | discriminate].
Qed.

Lemma decimal_nonneg (i f : N) (n : nat) :
  (0 <= inject_Z (Z.of_N i) + inject_Z (Z.of_N f) / inject_Z (10 ^ Z.of_nat n))%Q.
Proof.
  assert (Hi : (0 <= inject_Z (Z.of_N i))%Q).
  { replace 0%Q with (inject_Z 0) by reflexivity. rewrite <- Zle_Qle. lia. }
  assert (Hf : (0 <= inject_Z (Z.of_N f) / inject_Z (10 ^ Z.of_nat n))%Q).
  { apply Qle_shift_div_l.
    - replace 0%Q with (inject_Z 0) by reflexivity. rewrite <- Zlt_Qlt.
      apply Z.pow_pos_nonneg; lia.
    - rewrite Qmult_0_l. replace 0%Q with (inject_Z 0) by reflexivity.
      rewrite <- Zle_Qle. lia. }
  lra.
Qed.

Section Float.
Context `{Rounding}.

Lemma RN_nonneg (v : Q) : (0 <= v)%Q -> (0 <= RN v)%Q.
Proof.
  intros Hv. destruct (RN_bounds v) as [Hlo _].
  pose proof (Qabs_pos v Hv) as E. unfold unit_roundoff in Hlo. lra.
Qed.

(** [float] never fails on a magnitude, and the value is not negative. *)
Lemma float_of_magnitude num :
  magnitude num -> exists v, float_of_str num = Returned v /\ (0 <= v)%Q.
Proof.
  intros (ip & dot & fp & -> & Hne & Hip & Hdot & Hfp).
  unfold float_of_str. destruct Hdot as [-> | ->]; simpl.
  - assert (Hall : digits (ip ++ fp)) by (apply Forall_app; auto).
    rewrite split_at_stop_none by apply digits_no_stop, Hall.
    destruct (digits_value_Some _ 0 Hall) as [i ->]. simpl.
    destruct ip as [| c ip]; [congruence |]. simpl.
    eexists. split; [reflexivity |]. apply RN_nonneg, (decimal_nonneg i 0 0).
  - rewrite split_at_stop_some by apply digits_no_stop, Hip.
    destruct (digits_value_Some _ 0 Hip) as [i ->].
    destruct (digits_value_Some _ 0 Hfp) as [f ->].
    destruct ip as [| c ip]; [congruence |]. simpl.
    eexists. split; [reflexivity |].
    apply RN_nonneg, (decimal_nonneg i f (length fp)).
Qed.

(** ** The parser, by what the two searches find *)

Lemma str_eqb_letter (letter other : codepoint) :
  str_eqb [letter] [other] = (letter =? other).
Proof.
  unfold str_eqb. destruct (N.eqb_spec letter other) as [-> | Hne].
  - apply bool_decide_eq_true. reflexivity.
  - apply bool_decide_eq_false. congruence.
Qed.

Lemma parse_found coord_str lat_match lon_match num_lat l_lat num_lon l_lon vlat vlon :
  re_search lat_pattern coord_str = Some lat_match ->
  re_search lon_pattern coord_str = Some lon_match ->
  group lat_match 1 = num_lat -> group lat_match 2 = [l_lat] ->
  group lon_match 1 = num_lon -> group lon_match 2 = [l_lon] ->
  l_lat ∈ latitude_letters -> l_lon ∈ longitude_letters ->
  float_of_str num_lat = Returned vlat ->
  float_of_str num_lon = Returned vlon ->
  parse_coordinate_string coord_str = Returned (signed l_lat vlat, signed l_lon vlon).
Proof.
  intros Elat Elon G1 G2 G3 G4 Hlat Hlon Flat Flon.
  unfold parse_coordinate_string. rewrite Elat, Elon, G1, G2, G3, G4, Flat.
  simpl. rewrite Flon. simpl.
  change (py "S") with [LETTER_S]. change (py "W") with [LETTER_W].
  rewrite !str_eqb_letter. unfold signed.
  unfold latitude_letters, longitude_letters in *.
  repeat (apply elem_of_cons in Hlat as [-> | Hlat]; [| ]);
    try (apply elem_of_nil in Hlat; contradiction);
    repeat (apply elem_of_cons in Hlon as [-> | Hlon]; [| ]);
    try (apply elem_of_nil in Hlon; contradiction);
    reflexivity.
Qed.

(** Every run of the parser: it raises on a missing token and otherwise
    returns the signed magnitudes of the two matches. *)
Lemma parse_cases coord_str :
  (parse_coordinate_string coord_str = Raised (could_not_parse coord_str)
   /\ (~ has_token latitude_letters coord_str \/ ~ has_token longitude_letters coord_str))
  \/ (exists lat_match lon_match num_lat l_lat num_lon l_lon vlat vlon,
        re_search lat_pattern coord_str = Some lat_match
        /\ re_search lon_pattern coord_str = Some lon_match
        /\ group lat_match 1 = num_lat /\ group lat_match 2 = [l_lat]
        /\ group lon_match 1 = num_lon /\ group lon_match 2 = [l_lon]
        /\ magnitude num_lat /\ magnitude num_lon
        /\ l_lat ∈ latitude_letters /\ l_lon ∈ longitude_letters
        /\ float_of_str num_lat = Returned vlat /\ (0 <= vlat)%Q
        /\ float_of_str num_lon = Returned vlon /\ (0 <= vlon)%Q
        /\ has_token latitude_letters coord_str
        /\ has_token longitude_letters coord_str
        /\ parse_coordinate_string coord_str
           = Returned (signed l_lat vlat, signed l_lon vlon)).
Proof.
  destruct (re_search lat_pattern coord_str) as [lat_match |] eqn:Elat.
  2:{ left. split.
      - unfold parse_coordinate_string. rewrite Elat. reflexivity.
      - left. apply (re_search_None latitude_letters), Elat. }
  destruct (re_search lon_pattern coord_str) as [lon_match |] eqn:Elon.
  2:{ left. split.
      - unfold parse_coordinate_string. rewrite Elat, Elon. reflexivity.
      - right. apply (re_search_None longitude_letters), Elon. }
  right.
  destruct (re_search_Some latitude_letters _ _ Elat)
    as (pre1 & num_lat & ws1 & l_lat & post1 & E1 & Hn1 & Hw1 & Hl1 & G1 & G2).
  destruct (re_search_Some longitude_letters _ _ Elon)
    as (pre2 & num_lon & ws2 & l_lon & post2 & E2 & Hn2 & Hw2 & Hl2 & G3 & G4).
  destruct (float_of_magnitude _ Hn1) as (vlat & Flat & Hvlat).
  destruct (float_of_magnitude _ Hn2) as (vlon & Flon & Hvlon).
  exists lat_match, lon_match, num_lat, l_lat, num_lon, l_lon, vlat, vlon.
  repeat split; try assumption.
  - exists pre1, num_lat, ws1, l_lat, post1. auto.
  - exists pre2, num_lon, ws2, l_lon, post2. auto.
  - eapply parse_found; eassumption.
Qed.
End Float.

(** ** Two tokens in free text *)

Section TwoTokens.
Variable letters : list codepoint.
Let pat := hemisphere_pattern letters.

Lemma search_first_token t0 num ws letter post :
  free_text t0 = true -> magnitude num -> blanks ws -> letter ∈ letters ->
  exists m,
    re_search pat (t0 ++ token num ws letter ++ post) = Some m
    /\ group m 1 = num /\ group m 2 = [letter].
Proof.
  intros Hfree Hn Hw Hl. apply search_token; try assumption.
  apply dead_free_text; assumption.
Qed.

Lemma search_second_token t0 num' ws' letter' t1 num ws letter post :
  free_text t0 = true -> free_text t1 = true ->
  magnitude num' -> blanks ws' ->
  letter' ∉ letters -> Py_UNICODE_ISDECIMAL letter' = false ->
  magnitude num -> blanks ws -> letter ∈ letters ->
  exists m,
    re_search pat (t0 ++ token num' ws' letter' ++ t1 ++ token num ws letter ++ post)
    = Some m
    /\ group m 1 = num /\ group m 2 = [letter].
Proof.
  intros Hfree0 Hfree1 Hn' Hw' Hl' Hd' Hn Hw Hl.
  replace (t0 ++ token num' ws' letter' ++ t1 ++ token num ws letter ++ post)
    with ((t0 ++ token num' ws' letter' ++ t1) ++ token num ws letter ++ post)
    by (rewrite <- !app_assoc; reflexivity).
  apply search_token; try assumption.
  apply dead_app; [| apply dead_app].
  - rewrite <- app_assoc. apply dead_free_text; assumption.
  - apply dead_other_token; assumption.
  - apply dead_free_text; assumption.
Qed.
End TwoTokens.

Lemma latitude_letter_not_longitude l :
  l ∈ latitude_letters -> (l ∉ longitude_letters) /\ Py_UNICODE_ISDECIMAL l = false.
Proof.
  unfold latitude_letters, longitude_letters. intros Hl.
  apply elem_of_cons in Hl as [-> | Hl]; [| apply elem_of_cons in Hl as [-> | Hl]].
  - split; [| reflexivity]. rewrite !elem_of_cons, elem_of_nil.
    intros [E | [E | []]]; discriminate.
  - split; [| reflexivity]. rewrite !elem_of_cons, elem_of_nil.
    intros [E | [E | []]]; discriminate.
  - inversion Hl.
Qed.

Lemma longitude_letter_not_latitude l :
  l ∈ longitude_letters -> (l ∉ latitude_letters) /\ Py_UNICODE_ISDECIMAL l = false.
Proof.
  unfold latitude_letters, longitude_letters. intros Hl.
  apply elem_of_cons in Hl as [-> | Hl]; [| apply elem_of_cons in Hl as [-> | Hl]].
  - split; [| reflexivity]. rewrite !elem_of_cons, elem_of_nil.
    intros [E | [E | []]]; discriminate.
  - split; [| reflexivity]. rewrite !elem_of_cons, elem_of_nil.
    intros [E | [E | []]]; discriminate.
  - inversion Hl.
Qed.

(* ===================================================================== *)
(** * Deciding the side conditions on concrete texts                       *)
(* ===================================================================== *)

Definition is_magnitude (s : str) : bool :=
  let '(ip, fp) := split_at_stop s in
  match ip with [] => false | _ :: _ => true end
  && forallb Py_UNICODE_ISDECIMAL ip
  && forallb Py_UNICODE_ISDECIMAL (match fp with Some f => f | None => [] end).

Lemma split_at_stop_eq s :
  s = fst (split_at_stop s)
      ++ match snd (split_at_stop s) with Some f => FULL_STOP :: f | None => [] end.
Proof.
  induction s as [| c s IH]; simpl; [reflexivity |].
  destruct (N.eqb_spec c FULL_STOP) as [-> | _]; [reflexivity |].
  destruct (split_at_stop s) as [ip fp]. simpl in *. congruence.
Qed.

Lemma forallb_all_in (ok : codepoint -> bool) s : forallb ok s = true -> all_in ok s.
Proof.
  intros E. apply Forall_forall. intros c Hc.
  rewrite forallb_forall in E. apply E, list_elem_of_In, Hc.
Qed.

Lemma is_magnitude_true s : is_magnitude s = true -> magnitude s.
Proof.
  unfold is_magnitude. pose proof (split_at_stop_eq s) as E.
  destruct (split_at_stop s) as [ip fp]. simpl in E.
  intros Hs. apply andb_true_iff in Hs as [Hs Hfp].
  apply andb_true_iff in Hs as [Hne Hip].
  apply forallb_all_in in Hip, Hfp.
  destruct fp as [fp |].
  - exists ip, [FULL_STOP], fp. repeat split; auto.
    destruct ip; [discriminate | congruence].
  - exists ip, [], []. repeat split; auto.
    destruct ip; [discriminate | congruence].
Qed.

(** ** Either a first containing basin or none *)

Lemma first_true_or_none {A} (f : A -> bool) (l : list A) :
  (exists pre a post,
      l = pre ++ a :: post /\ Forall (fun a' => f a' = false) pre /\ f a = true)
  \/ Forall (fun a' => f a' = false) l.
Proof.
  induction l as [| a l IH]; [right; constructor |].
  destruct (f a) eqn:Ha.
  - left. exists [], a, l. repeat split; [constructor | exact Ha].
  - destruct IH as [(pre & b & post & -> & Hpre & Hb) | Hall].
    + left. exists (a :: pre), b, post. repeat split; [constructor |]; assumption.
    + right. constructor; assumption.
Qed.

(* ===================================================================== *)
(** * The claims of the specification                                      *)
(* ===================================================================== *)




Definition demo_row : Result :=
  {| rank := 1; basin_pair := "Ganges-Nile"; project := "Demo"; design_flow := "≈ 200";
     sender_basin := "Ganges"; receiver_basin := "Nile";
     sender_species_count := 3; sender_native_count := 2; sender_exotic_count := 1;
     receiver_species_count := 3; receiver_native_count := 1; receiver_exotic_count := 1;
     jaccard_similarity := 2 # 4; jaccard_dissimilarity := 2 # 4;
     shared_species_count := 2; total_unique_species := 4 |}.


(** C2, as the specification has it, fails: the parser checks no range. *)
Lemma C2_counterexample :
  exists lat lon,
    parse_coordinate_string (py "999 °N 999 °E") = Returned (lat, lon)
    /\ ~ (-90 <= lat <= 90)%Q /\ ~ (-180 <= lon <= 180)%Q.
Proof.
  eexists _, _. split; [vm_compute; reflexivity |].
  split; intros [_ Habs]; vm_compute in Habs; apply Habs; reflexivity.
Qed.

(** C2 (amended). For every coordinate string the parser accepts, the
    latitude and the longitude are the floats of the magnitudes of the two
    matched tokens, negated for S and W; no range is enforced, so the
    latitude lies in [-90, 90] exactly when the float of its magnitude
    ([vlat]) is at most 90 and the longitude in [-180, 180] exactly when
    the float of its magnitude ([vlon]) is at most 180.  The comparison is
    on the float, not on the digits as written: a magnitude written above
    90 whose float is 90 is in range. *)
Theorem C2_range_follows_magnitude `{Rounding} (coord_str : str) (lat lon : float) :
  parse_coordinate_string coord_str = Returned (lat, lon) ->
  exists lat_match lon_match l_lat l_lon vlat vlon,
    re_search lat_pattern coord_str = Some lat_match
    /\ re_search lon_pattern coord_str = Some lon_match
    /\ group lat_match 2 = [l_lat] /\ group lon_match 2 = [l_lon]
    /\ float_of_str (group lat_match 1) = Returned vlat
    /\ float_of_str (group lon_match 1) = Returned vlon
    /\ lat = signed l_lat vlat /\ lon = signed l_lon vlon
    /\ ((-90 <= lat <= 90)%Q <-> (vlat <= 90)%Q)
    /\ ((-180 <= lon <= 180)%Q <-> (vlon <= 180)%Q).
Proof.
  intros Hparse.
  destruct (parse_cases coord_str) as [[Hraise _] | Hfound]; [congruence |].
  destruct Hfound as (lm & om & num_lat & l_lat & num_lon & l_lon & vlat & vlon
                      & Elat & Elon & G1 & G2 & G3 & G4 & _ & _ & _ & _
                      & Flat & Hvlat & Flon & Hvlon & _ & _ & Hret).
  rewrite Hparse in Hret. injection Hret as -> ->.
  exists lm, om, l_lat, l_lon, vlat, vlon. subst num_lat num_lon.
  repeat split; try assumption; try reflexivity;
    unfold signed, float_neg in *;
    repeat match goal with
           | |- context [if ?b then _ else _] => destruct b
           | H : context [if ?b then _ else _] |- _ => destruct b
           | H : (_ <= _ <= _)%Q |- _ => destruct H
           end; lra.
Qed.

Lemma C2_range_follows_magnitude_witness :
  exists lat_match lon_match l_lat l_lon vlat vlon,
    re_search lat_pattern (py "25.32 °N 83.01 °E") = Some lat_match
    /\ re_search lon_pattern (py "25.32 °N 83.01 °E") = Some lon_match
    /\ group lat_match 2 = [l_lat] /\ group lon_match 2 = [l_lon]
    /\ float_of_str (group lat_match 1) = Returned vlat
    /\ float_of_str (group lon_match 1) = Returned vlon
    /\ 25.32%Q = signed l_lat vlat /\ 83.01%Q = signed l_lon vlon
    /\ ((-90 <= 25.32 <= 90)%Q <-> (vlat <= 90)%Q)
    /\ ((-180 <= 83.01 <= 180)%Q <-> (vlon <= 180)%Q).
Proof.
  apply (C2_range_follows_magnitude (py "25.32 °N 83.01 °E") 25.32%Q 83.01%Q).
  vm_compute. reflexivity.
Defined.


(** C5. When some polygon contains the point, the lookup returns the
    identifier of the first containing polygon in the order of the
    dataset, whatever follows it; in particular the identifier of the only
    containing polygon when there is exactly one. *)
Theorem C5_first_containing_polygon {G : Type} `{Geometry G}
    (lat lon : float) (pre : list (Basin G)) (b : Basin G) (post : list (Basin G)) :
  Forall (fun b' => contains_point lat lon b' = false) pre ->
  contains_point lat lon b = true ->
  find_basin_by_coordinates lat lon (load_shapefile (pre ++ b :: post))
  = ([], Returned (BasinName b)).
Proof. apply find_basin_contained. Qed.

(** The point at longitude 72 lies in the Ganges strip and in the Indus
    strip; the Ganges record comes first. *)
Lemma C5_first_containing_polygon_witness :
  find_basin_by_coordinates 0%Q 72%Q (load_shapefile demo_basins)
  = ([], Returned "Ganges").
Proof.
  apply (C5_first_containing_polygon 0%Q 72%Q []
           (mkBasin "Ganges" (mkStrip 70 90)%Q)
           [mkBasin "Indus" (mkStrip 60 75)%Q; mkBasin "Nile" (mkStrip 25 40)%Q]).
  - constructor.
  - reflexivity.
Defined.

(** C6. When no polygon contains the point and the set is not empty, the
    lookup returns the identifier of a polygon at minimal planar distance
    and prints one warning naming that basin, the point and the distance;
    the call returns. *)
Theorem C6_nearest_polygon_fallback {G : Type} `{Geometry G}
    (lat lon : float) (records : list (Basin G)) :
  records <> [] ->
  Forall (fun b => contains_point lat lon b = false) records ->
  exists b,
    b ∈ records
    /\ Forall (fun b' => (distance_to lat lon b <= distance_to lat lon b')%Q) records
    /\ find_basin_by_coordinates lat lon (load_shapefile records)
       = ([WarningNearest lat lon (BasinName b) (distance_to lat lon b)],
          Returned (BasinName b)).
Proof.
  intros Hrec Hnone.
  destruct (first_min_exists (distance_to lat lon) records Hrec)
    as (pre & b & post & -> & Hpre & Hpost).
  exists b. split; [apply elem_of_app; right; apply list_elem_of_here |]. split.
  - apply Forall_app. split; [| constructor; [apply Qle_refl | exact Hpost]].
    eapply Forall_impl; [exact Hpre |]. intros b'. apply Qlt_le_weak.
  - apply find_basin_nearest; assumption.
Qed.

Lemma C6_nearest_polygon_fallback_witness :
  exists b,
    b ∈ demo_basins
    /\ Forall (fun b' => (distance_to 0 50 b <= distance_to 0 50 b')%Q) demo_basins
    /\ find_basin_by_coordinates 0%Q 50%Q (load_shapefile demo_basins)
       = ([WarningNearest 0 50 (BasinName b) (distance_to 0 50 b)],
          Returned (BasinName b)).
Proof.
  apply (C6_nearest_polygon_fallback 0%Q 50%Q demo_basins).
  - discriminate.
  - repeat constructor.
Defined.

(** C10. In the nearest-polygon fallback a tie for the minimal distance
    goes to the first of the tied polygons in the order of the dataset:
    the polygon returned is strictly nearer than every polygon before it
    and at least as near as every polygon after it. *)
Theorem C10_nearest_tie_goes_to_first {G : Type} `{Geometry G}
    (lat lon : float) (pre : list (Basin G)) (b : Basin G) (post : list (Basin G)) :
  Forall (fun b' => contains_point lat lon b' = false) (pre ++ b :: post) ->
  Forall (fun b' => (distance_to lat lon b < distance_to lat lon b')%Q) pre ->
  Forall (fun b' => (distance_to lat lon b <= distance_to lat lon b')%Q) post ->
  snd (find_basin_by_coordinates lat lon (load_shapefile (pre ++ b :: post)))
  = Returned (BasinName b).
Proof.
  intros Hnone Hpre Hpost.
  rewrite (find_basin_nearest lat lon pre b post Hnone Hpre Hpost). reflexivity.
Qed.

(** The point at longitude 50 is 10 away from the Indus strip and 10 away
    from the Nile strip; the Indus record comes first. *)
Lemma C10_nearest_tie_goes_to_first_witness :
  distance_to 0 50 (mkBasin "Indus" (mkStrip 60 75)%Q)
  = distance_to 0 50 (mkBasin "Nile" (mkStrip 25 40)%Q)
  /\ snd (find_basin_by_coordinates 0%Q 50%Q (load_shapefile demo_basins))
     = Returned "Indus".
Proof.
  split; [reflexivity |].
  apply (C10_nearest_tie_goes_to_first 0%Q 50%Q
           [mkBasin "Ganges" (mkStrip 70 90)%Q]
           (mkBasin "Indus" (mkStrip 60 75)%Q)
           [mkBasin "Nile" (mkStrip 25 40)%Q]).
  - repeat constructor.
  - repeat constructor.
  - repeat constructor. vm_compute. discriminate.
Defined.

(** C7. For every basin identifier and occurrence table, the total count
    is the number of distinct species names among the records whose basin
    field is exactly the identifier, whatever their status; the native and
    the exotic counts are the numbers of distinct names among those of the
    matching records whose status is exactly [native], respectively
    [exotic].  The two need not add up to the total: a table with another
    status value is given. *)
Theorem C7_counts_of_distinct_species :
  (forall (basin_name : string) (occurrence_table : list Occurrence)
          (total native exotic : gset string),
      (forall s, s ∈ total <->
                 exists r, r ∈ occurrence_table
                           /\ Basin_Name r = Some basin_name
                           /\ Fishbase_Valid_Species_Name r = Some s) ->
      (forall s, s ∈ native <->
                 exists r, r ∈ occurrence_table
                           /\ Basin_Name r = Some basin_name
                           /\ Native_Exotic_Status r = Some "native"
                           /\ Fishbase_Valid_Species_Name r = Some s) ->
      (forall s, s ∈ exotic <->
                 exists r, r ∈ occurrence_table
                           /\ Basin_Name r = Some basin_name
                           /\ Native_Exotic_Status r = Some "exotic"
                           /\ Fishbase_Valid_Species_Name r = Some s) ->
      let d := get_basin_fish_diversity basin_name (range_index occurrence_table) in
      species_count d = size total
      /\ native_species_count d = size native
      /\ exotic_species_count d = size exotic)
  /\ (exists basin_name occurrence_table,
        let d := get_basin_fish_diversity basin_name (range_index occurrence_table) in
        (native_species_count d + exotic_species_count d)%nat <> species_count d).
Proof.
  split.
  - intros basin_name occurrence_table total native exotic Htotal Hnative Hexotic d.
    destruct (diversity_counts basin_name (range_index occurrence_table))
      as (Ec & En & Ee & _).
    fold d in Ec, En, Ee. rewrite Ec, En, Ee, !nunique_size.
    assert (Hstatus : forall st (X : gset string),
              (forall s, s ∈ X <->
                 exists r, r ∈ occurrence_table
                           /\ Basin_Name r = Some basin_name
                           /\ Native_Exotic_Status r = Some st
                           /\ Fishbase_Valid_Species_Name r = Some s) ->
              list_to_set (dropna (species_column
                (select (fun r => eq_str (Native_Exotic_Status r) st)
                   (select (fun r => eq_str (Basin_Name r) basin_name)
                      (range_index occurrence_table))))) = X).
    { intros st X HX. apply set_eq. intros s.
      rewrite elem_of_species, HX. split.
      - intros (r & Hr & Hs).
        apply elem_of_select in Hr as [Hr Hst].
        apply elem_of_select in Hr as [Hr Hb].
        apply eq_str_true in Hst, Hb.
        exists (snd r). repeat split; try assumption.
        apply elem_of_range_index_rows. eauto.
      - intros (row & Hrow & Hb & Hst & Hs).
        apply elem_of_range_index_rows in Hrow as (r & Hr & <-).
        exists r. split; [| exact Hs].
        apply elem_of_select. split; [| apply eq_str_true, Hst].
        apply elem_of_select. split; [exact Hr | apply eq_str_true, Hb]. }
    repeat split.
    + f_equal. apply set_eq. intros s.
      rewrite elem_of_species, Htotal. split.
      * intros (r & Hr & Hs).
        apply elem_of_select in Hr as [Hr Hb]. apply eq_str_true in Hb.
        exists (snd r). repeat split; try assumption.
        apply elem_of_range_index_rows. eauto.
      * intros (row & Hrow & Hb & Hs).
        apply elem_of_range_index_rows in Hrow as (r & Hr & <-).
        exists r. split; [| exact Hs].
        apply elem_of_select. split; [exact Hr | apply eq_str_true, Hb].
    + f_equal. apply Hstatus, Hnative.
    + f_equal. apply Hstatus, Hexotic.
  - exists "Nile", demo_occ. vm_compute. discriminate.
Qed.

(** The Ganges rows of the demonstration table: species A, B (native) and
    C (exotic), A occurring twice. *)
Lemma C7_counts_of_distinct_species_witness :
  let d := get_basin_fish_diversity "Ganges" (range_index demo_occ) in
  species_count d = size ({[ "A"; "B"; "C" ]} : gset string)
  /\ native_species_count d = size ({[ "A"; "B" ]} : gset string)
  /\ exotic_species_count d = size ({[ "C" ]} : gset string).
Proof.
  assert (Hin : forall st s,
            mkOccurrence (Some "Ganges") (Some st) (Some s) ∈ demo_occ ->
            exists r, r ∈ demo_occ /\ Basin_Name r = Some "Ganges"
                      /\ Native_Exotic_Status r = Some st
                      /\ Fishbase_Valid_Species_Name r = Some s).
  { intros st s Hr. eexists. split; [exact Hr |]. repeat split. }
  assert (HA : mkOccurrence (Some "Ganges") (Some "native") (Some "A") ∈ demo_occ)
    by (unfold demo_occ; repeat first [apply list_elem_of_here | apply list_elem_of_further]).
  assert (HB : mkOccurrence (Some "Ganges") (Some "native") (Some "B") ∈ demo_occ)
    by (unfold demo_occ; repeat first [apply list_elem_of_here | apply list_elem_of_further]).
  assert (HC : mkOccurrence (Some "Ganges") (Some "exotic") (Some "C") ∈ demo_occ)
    by (unfold demo_occ; repeat first [apply list_elem_of_here | apply list_elem_of_further]).
  apply (proj1 C7_counts_of_distinct_species "Ganges" demo_occ
           {[ "A"; "B"; "C" ]} {[ "A"; "B" ]} {[ "C" ]}).
  - intros s. split.
    + rewrite !elem_of_union, !elem_of_singleton.
      intros [[-> | ->] | ->];
        [destruct (Hin _ _ HA) as (r & ? & ? & ? & ?)
        |destruct (Hin _ _ HB) as (r & ? & ? & ? & ?)
        |destruct (Hin _ _ HC) as (r & ? & ? & ? & ?)]; exists r; auto.
    + intros (r & Hr & Hb & Hs). unfold demo_occ in Hr.
      repeat (apply elem_of_cons in Hr as [-> | Hr];
              [simpl in Hb, Hs; try discriminate; injection Hs as <-;
               rewrite !elem_of_union, !elem_of_singleton; auto |]).
      inversion Hr.
  - intros s. split.
    + rewrite !elem_of_union, !elem_of_singleton.
      intros [-> | ->]; [apply (Hin _ _ HA) | apply (Hin _ _ HB)].
    + intros (r & Hr & Hb & Hst & Hs). unfold demo_occ in Hr.
      repeat (apply elem_of_cons in Hr as [-> | Hr];
              [simpl in Hb, Hst, Hs; try discriminate; injection Hs as <-;
               rewrite !elem_of_union, !elem_of_singleton; auto |]).
      inversion Hr.
  - intros s. split.
    + rewrite !elem_of_singleton. intros ->. apply (Hin _ _ HC).
    + intros (r & Hr & Hb & Hst & Hs). unfold demo_occ in Hr.
      repeat (apply elem_of_cons in Hr as [-> | Hr];
              [simpl in Hb, Hst, Hs; try discriminate; injection Hs as <-;
               rewrite ?elem_of_singleton; auto |]).
      inversion Hr.
Defined.

(** C8. The parser raises exactly when the string holds no latitude token
    or no longitude token (a token is a decimal magnitude, blanks, the
    degree sign and a hemisphere letter, so a token with a non-numeric
    magnitude is no token); the exception carries the raw string, it is
    the only exception the parser raises, and with both tokens present a
    pair of coordinates read from the text is returned. *)
Theorem C8_parse_error_iff_token_missing `{Rounding} (coord_str : str) :
  (parse_coordinate_string coord_str
   = Raised (ValueError (py "Could not parse coordinates from: " ++ coord_str))
   <-> ~ has_token latitude_letters coord_str
       \/ ~ has_token longitude_letters coord_str)
  /\ (forall e, parse_coordinate_string coord_str = Raised e ->
                e = ValueError (py "Could not parse coordinates from: " ++ coord_str))
  /\ (has_token latitude_letters coord_str /\ has_token longitude_letters coord_str
      <-> exists lat lon, parse_coordinate_string coord_str = Returned (lat, lon)).
Proof.
  destruct (parse_cases coord_str) as [[Hraise Hmissing] | Hfound].
  - split; [split | split; [| split]].
    + intros _. exact Hmissing.
    + intros _. exact Hraise.
    + intros e He. rewrite Hraise in He. injection He as <-. reflexivity.
    + intros [Hlat Hlon]. destruct Hmissing as [Hno | Hno]; contradiction.
    + intros (lat & lon & Hret). congruence.
  - destruct Hfound as (lm & om & num_lat & l_lat & num_lon & l_lon & vlat & vlon
                        & _ & _ & _ & _ & _ & _ & _ & _ & _ & _
                        & _ & _ & _ & _ & Hlat & Hlon & Hret).
    split; [split | split; [| split]].
    + intros Hraise. congruence.
    + intros [Hno | Hno]; contradiction.
    + intros e He. congruence.
    + intros _. eauto.
    + intros _. split; assumption.
Qed.

(** C9, as the specification has it, fails at a zero magnitude: the letter
    is S and the latitude, minus zero, is not negative. *)
Lemma C9_counterexample :
  exists lat lon,
    parse_coordinate_string (py "0 °S 0 °W") = Returned (lat, lon)
    /\ option_map (fun m => group m 2) (re_search lat_pattern (py "0 °S 0 °W"))
       = Some (py "S")
    /\ (0 <= lat)%Q
    /\ ~ ((0 <= lat)%Q
          <-> option_map (fun m => group m 2) (re_search lat_pattern (py "0 °S 0 °W"))
              = Some (py "N")).
Proof.
  eexists _, _. split; [vm_compute; reflexivity |].
  split; [vm_compute; reflexivity |].
  split; [vm_compute; discriminate |].
  intros [Hiff _].
  assert (Hle : (0 <= float_neg (RN (inject_Z 0 + inject_Z 0 / inject_Z (10 ^ 0))))%Q)
    by (vm_compute; discriminate).
  apply Hiff in Hle. vm_compute in Hle. discriminate.
Qed.

(** C9 (amended). For every string the parser accepts, each returned value
    is the magnitude of the matched token, read by [float], under the sign
    of the hemisphere letter alone: the magnitude consists of digits and at
    most one full stop (a minus sign in front of it is not part of the
    match) and is not negative; the latitude is the magnitude for N and its
    negation for S, so it is at least 0 for N and at most 0 for S, and it is
    non-negative exactly when the letter is N or the magnitude is zero;
    likewise the longitude with E and W. *)
Theorem C9_sign_from_hemisphere_letter `{Rounding} (coord_str : str) (lat lon : float) :
  parse_coordinate_string coord_str = Returned (lat, lon) ->
  exists lat_match lon_match l_lat l_lon vlat vlon,
    re_search lat_pattern coord_str = Some lat_match
    /\ re_search lon_pattern coord_str = Some lon_match
    /\ magnitude (group lat_match 1) /\ magnitude (group lon_match 1)
    /\ group lat_match 2 = [l_lat] /\ group lon_match 2 = [l_lon]
    /\ float_of_str (group lat_match 1) = Returned vlat /\ (0 <= vlat)%Q
    /\ float_of_str (group lon_match 1) = Returned vlon /\ (0 <= vlon)%Q
    /\ (l_lat = LETTER_N /\ lat = vlat \/ l_lat = LETTER_S /\ lat = float_neg vlat)
    /\ (l_lon = LETTER_E /\ lon = vlon \/ l_lon = LETTER_W /\ lon = float_neg vlon)
    /\ (l_lat = LETTER_N -> (0 <= lat)%Q) /\ (l_lat = LETTER_S -> (lat <= 0)%Q)
    /\ (l_lon = LETTER_E -> (0 <= lon)%Q) /\ (l_lon = LETTER_W -> (lon <= 0)%Q)
    /\ ((0 <= lat)%Q <-> l_lat = LETTER_N \/ (vlat == 0)%Q)
    /\ ((0 <= lon)%Q <-> l_lon = LETTER_E \/ (vlon == 0)%Q).
Proof.
  intros Hparse.
  destruct (parse_cases coord_str) as [[Hraise _] | Hfound]; [congruence |].
  destruct Hfound as (lm & om & num_lat & l_lat & num_lon & l_lon & vlat & vlon
                      & Elat & Elon & G1 & G2 & G3 & G4 & Hn1 & Hn2 & Hl1 & Hl2
                      & Flat & Hvlat & Flon & Hvlon & _ & _ & Hret).
  rewrite Hparse in Hret. injection Hret as -> ->.
  exists lm, om, l_lat, l_lon, vlat, vlon. subst num_lat num_lon.
  unfold latitude_letters, longitude_letters in Hl1, Hl2.
  assert (Hlat : l_lat = LETTER_N \/ l_lat = LETTER_S).
  { apply elem_of_cons in Hl1 as [-> | Hl1]; [auto |].
    apply elem_of_cons in Hl1 as [-> | Hl1]; [auto | inversion Hl1]. }
  assert (Hlon : l_lon = LETTER_E \/ l_lon = LETTER_W).
  { apply elem_of_cons in Hl2 as [-> | Hl2]; [auto |].
    apply elem_of_cons in Hl2 as [-> | Hl2]; [auto | inversion Hl2]. }
  repeat match goal with |- _ /\ _ => split end; try assumption.
  - destruct Hlat as [-> | ->]; [left | right]; split; reflexivity.
  - destruct Hlon as [-> | ->]; [left | right]; split; reflexivity.
  - intros ->. exact Hvlat.
  - intros ->. unfold signed, float_neg. simpl. lra.
  - intros ->. exact Hvlon.
  - intros ->. unfold signed, float_neg. simpl. lra.
  - destruct Hlat as [-> | ->]; unfold signed, float_neg; simpl; split.
    + auto.
    + intros _. exact Hvlat.
    + intros Hle. right. lra.
    + intros [Habs | Hz]; [discriminate | lra].
  - destruct Hlon as [-> | ->]; unfold signed, float_neg; simpl; split.
    + auto.
    + intros _. exact Hvlon.
    + intros Hle. right. lra.
    + intros [Habs | Hz]; [discriminate | lra].
Qed.

(** A minus sign before each magnitude: the parser returns (5, 3). *)
Lemma C9_sign_from_hemisphere_letter_witness :
  exists lat_match lon_match l_lat l_lon vlat vlon,
    re_search lat_pattern (py "-5 °N -3 °E") = Some lat_match
    /\ re_search lon_pattern (py "-5 °N -3 °E") = Some lon_match
    /\ magnitude (group lat_match 1) /\ magnitude (group lon_match 1)
    /\ group lat_match 2 = [l_lat] /\ group lon_match 2 = [l_lon]
    /\ float_of_str (group lat_match 1) = Returned vlat /\ (0 <= vlat)%Q
    /\ float_of_str (group lon_match 1) = Returned vlon /\ (0 <= vlon)%Q
    /\ (l_lat = LETTER_N /\ 5%Q = vlat \/ l_lat = LETTER_S /\ 5%Q = float_neg vlat)
    /\ (l_lon = LETTER_E /\ 3%Q = vlon \/ l_lon = LETTER_W /\ 3%Q = float_neg vlon)
    /\ (l_lat = LETTER_N -> (0 <= 5)%Q) /\ (l_lat = LETTER_S -> (5 <= 0)%Q)
    /\ (l_lon = LETTER_E -> (0 <= 3)%Q) /\ (l_lon = LETTER_W -> (3 <= 0)%Q)
    /\ ((0 <= 5)%Q <-> l_lat = LETTER_N \/ (vlat == 0)%Q)
    /\ ((0 <= 3)%Q <-> l_lon = LETTER_E \/ (vlon == 0)%Q).
Proof.
  apply (C9_sign_from_hemisphere_letter (py "-5 °N -3 °E") 5%Q 3%Q).
  vm_compute. reflexivity.
Defined.

(** C4. A string made of free text, a latitude token, free text, a
    longitude token and any text after it (or the same with the longitude
    token first) parses to the latitude magnitude, positive for N and
    negative for S, and the longitude magnitude, positive for E and
    negative for W.  Free text is any text without a degree sign that does
    not end in a digit or a full stop; the magnitudes are read by
    [float]. *)
Theorem C4_tokens_in_either_order `{Rounding}
    (t0 t1 t2 num_lat ws_lat : str) (l_lat : codepoint)
    (num_lon ws_lon : str) (l_lon : codepoint) (vlat vlon : float) :
  free_text t0 = true -> free_text t1 = true ->
  magnitude num_lat -> blanks ws_lat -> l_lat ∈ latitude_letters ->
  magnitude num_lon -> blanks ws_lon -> l_lon ∈ longitude_letters ->
  float_of_str num_lat = Returned vlat ->
  float_of_str num_lon = Returned vlon ->
  let lat := if l_lat =? LETTER_S then float_neg vlat else vlat in
  let lon := if l_lon =? LETTER_W then float_neg vlon else vlon in
  parse_coordinate_string
    (t0 ++ token num_lat ws_lat l_lat ++ t1 ++ token num_lon ws_lon l_lon ++ t2)
  = Returned (lat, lon)
  /\ parse_coordinate_string
       (t0 ++ token num_lon ws_lon l_lon ++ t1 ++ token num_lat ws_lat l_lat ++ t2)
     = Returned (lat, lon).
Proof.
  intros Hf0 Hf1 Hn1 Hw1 Hl1 Hn2 Hw2 Hl2 Flat Flon lat lon.
  destruct (latitude_letter_not_longitude _ Hl1) as [Hx1 Hd1].
  destruct (longitude_letter_not_latitude _ Hl2) as [Hx2 Hd2].
  assert (Elat : lat = signed l_lat vlat).
  { subst lat. unfold signed, latitude_letters in *.
    apply elem_of_cons in Hl1 as [-> | Hl1]; [reflexivity |].
    apply elem_of_cons in Hl1 as [-> | Hl1]; [reflexivity | inversion Hl1]. }
  assert (Elon : lon = signed l_lon vlon).
  { subst lon. unfold signed, longitude_letters in *.
    apply elem_of_cons in Hl2 as [-> | Hl2]; [reflexivity |].
    apply elem_of_cons in Hl2 as [-> | Hl2]; [reflexivity | inversion Hl2]. }
  rewrite Elat, Elon. split.
  - destruct (search_first_token latitude_letters t0 num_lat ws_lat l_lat
                (t1 ++ token num_lon ws_lon l_lon ++ t2) Hf0 Hn1 Hw1 Hl1)
      as (lm & Slat & G1 & G2).
    destruct (search_second_token longitude_letters t0 num_lat ws_lat l_lat t1
                num_lon ws_lon l_lon t2 Hf0 Hf1 Hn1 Hw1 Hx1 Hd1 Hn2 Hw2 Hl2)
      as (om & Slon & G3 & G4).
    eapply parse_found; eassumption.
  - destruct (search_second_token latitude_letters t0 num_lon ws_lon l_lon t1
                num_lat ws_lat l_lat t2 Hf0 Hf1 Hn2 Hw2 Hx2 Hd2 Hn1 Hw1 Hl1)
      as (lm & Slat & G1 & G2).
    destruct (search_first_token longitude_letters t0 num_lon ws_lon l_lon
                (t1 ++ token num_lat ws_lat l_lat ++ t2) Hf0 Hn2 Hw2 Hl2)
      as (om & Slon & G3 & G4).
    eapply parse_found; eassumption.
Qed.

(** The two strings of the specification. *)
Lemma C4_tokens_in_either_order_witness :
  parse_coordinate_string (py "25.32 °N 83.01 °E") = Returned (25.32, 83.01)%Q
  /\ parse_coordinate_string (py "10.0 °S 20.0 °W") = Returned (-10.0, -20.0)%Q.
Proof.
  assert (Hb : blanks (py " ")) by (repeat constructor).
  split.
  - refine (proj1 (C4_tokens_in_either_order [] (py " ") []
                     (py "25.32") (py " ") LETTER_N (py "83.01") (py " ") LETTER_E
                     25.32%Q 83.01%Q eq_refl eq_refl
                     (is_magnitude_true (py "25.32") eq_refl) Hb _
                     (is_magnitude_true (py "83.01") eq_refl) Hb _ eq_refl eq_refl)).
    + apply list_elem_of_here.
    + apply list_elem_of_here.
  - refine (proj1 (C4_tokens_in_either_order [] (py " ") []
                     (py "10.0") (py " ") LETTER_S (py "20.0") (py " ") LETTER_W
                     10.0%Q 20.0%Q eq_refl eq_refl
                     (is_magnitude_true (py "10.0") eq_refl) Hb _
                     (is_magnitude_true (py "20.0") eq_refl) Hb _ eq_refl eq_refl)).
    + apply list_elem_of_further, list_elem_of_here.
    + apply list_elem_of_further, list_elem_of_here.
Defined.

(* ===================================================================== *)
(** * Further properties: the inventory of a basin                         *)
(* ===================================================================== *)

(** The rows of the occurrence table that [get_basin_fish_diversity]
    selects, and those among them under one status. *)
Definition basin_fish_of (basin_name : string) (occurrence_table : list Occurrence)
  : list (Z * Occurrence) :=
  select (fun r => eq_str (Basin_Name r) basin_name) (range_index occurrence_table).

Definition with_status (st : string) (df : list (Z * Occurrence)) : list (Z * Occurrence) :=
  select (fun r => eq_str (Native_Exotic_Status r) st) df.

Definition names_in (df : list (Z * Occurrence)) : gset string :=
  list_to_set (dropna (species_column df)).

Lemma elem_of_basin_fish_of basin_name occurrence_table row :
  (exists r, r ∈ basin_fish_of basin_name occurrence_table /\ snd r = row)
  <-> row ∈ occurrence_table /\ Basin_Name row = Some basin_name.
Proof.
  unfold basin_fish_of. split.
  - intros (r & Hr & <-). apply elem_of_select in Hr as [Hr Hb].
    apply eq_str_true in Hb. split; [| exact Hb].
    apply elem_of_range_index_rows. eauto.
  - intros [Hrow Hb]. apply elem_of_range_index_rows in Hrow as (r & Hr & <-).
    exists r. split; [| reflexivity].
    apply elem_of_select. split; [exact Hr | apply eq_str_true, Hb].
Qed.

Lemma elem_of_names_in df s :
  s ∈ names_in df <-> exists r, r ∈ df /\ Fishbase_Valid_Species_Name (snd r) = Some s.
Proof. apply elem_of_species. Qed.

Lemma diversity_as_sets basin_name occurrence_table :
  let d := get_basin_fish_diversity basin_name (range_index occurrence_table) in
  let rows := basin_fish_of basin_name occurrence_table in
  species_count d = size (names_in rows)
  /\ native_species_count d = size (names_in (with_status "native" rows))
  /\ exotic_species_count d = size (names_in (with_status "exotic" rows))
  /\ species_list d = unique (species_column rows).
Proof.
  intros d rows.
  destruct (diversity_counts basin_name (range_index occurrence_table))
    as (Ec & En & Ee & El).
  fold d in Ec, En, Ee, El. rewrite Ec, En, Ee, El, !nunique_size. auto.
Qed.

Lemma names_in_status_subseteq st df : names_in (with_status st df) ⊆ names_in df.
Proof.
  intros s. rewrite !elem_of_names_in. intros (r & Hr & Hs).
  apply elem_of_select in Hr as [Hr _]. eauto.
Qed.

Lemma unique_nil_inv {A} `{EqDecision A} (l : list A) : unique l = [] -> l = [].
Proof. destruct l; [reflexivity | discriminate]. Qed.

(** Counting a duplicate-free list with and without its missing value. *)
Lemma length_NoDup_dropna {A} `{EqDecision A} (l : list (option A)) :
  NoDup l ->
  length l = (length (dropna l) + if bool_decide (None ∈ l) then 1 else 0)%nat.
Proof.
  induction 1 as [| o l Ho Hl IH]; [reflexivity |].
  destruct o as [a |].
  - assert (E : bool_decide (None ∈ Some a :: l) = bool_decide (None ∈ l)).
    { apply bool_decide_ext. rewrite elem_of_cons.
      split; [intros [E | Hin]; [discriminate | exact Hin] | auto]. }
    rewrite E. change (dropna (Some a :: l)) with (a :: dropna l).
    cbn [length]. rewrite IH. reflexivity.
  - rewrite bool_decide_eq_true_2 by apply list_elem_of_here.
    change (dropna (None :: l)) with (dropna l).
    cbn [length]. rewrite IH, bool_decide_eq_false_2 by exact Ho. lia.
Qed.

Lemma NoDup_dropna {A} (l : list (option A)) : NoDup l -> NoDup (dropna l).
Proof.
  induction 1 as [| o l Ho Hl IH]; [constructor |].
  destruct o as [a |]; simpl; [| exact IH].
  constructor; [| exact IH].
  unfold dropna. rewrite list_elem_of_omap. intros (o & Hin & E).
  destruct o; simpl in E; [| discriminate]. injection E as ->. contradiction.
Qed.

Lemma length_unique {A} `{Countable A} (l : list (option A)) :
  length (unique l)
  = (nunique l + if bool_decide (None ∈ l) then 1 else 0)%nat.
Proof.
  rewrite (length_NoDup_dropna (unique l)) by apply NoDup_unique_from.
  f_equal.
  - unfold nunique. apply Permutation_length, NoDup_Permutation.
    + apply NoDup_dropna, NoDup_unique_from.
    + apply NoDup_unique_from.
    + intros a. unfold dropna. rewrite elem_of_unique, !list_elem_of_omap.
      split; intros (o & Ho & E); exists o; split; try exact E;
        apply elem_of_unique; exact Ho.
  - rewrite (bool_decide_ext (None ∈ unique l) (None ∈ l)) by apply elem_of_unique.
    reflexivity.
Qed.

(** X1. A basin has the all-zero inventory with the empty species list
    exactly when no record of the table carries its name. *)
Theorem X1_absent_basin_iff_zero_inventory
    (basin_name : string) (occurrence_table : list Occurrence) :
  (forall r, r ∈ occurrence_table -> Basin_Name r <> Some basin_name)
  <-> get_basin_fish_diversity basin_name (range_index occurrence_table)
      = mkDiversity 0 0 0 [].
Proof.
  split.
  - intros Hnone. unfold get_basin_fish_diversity.
    rewrite select_nil; [reflexivity |].
    eapply Forall_impl; [apply range_index_rows |]. simpl. intros r Hr.
    destruct (eq_str (Basin_Name (snd r)) basin_name) eqn:E; [| reflexivity].
    apply eq_str_true in E. exfalso. apply (Hnone _ Hr E).
  - intros Hzero r Hr Hb.
    destruct (diversity_as_sets basin_name occurrence_table) as (_ & _ & _ & El).
    rewrite Hzero in El. simpl in El. symmetry in El.
    apply unique_nil_inv in El.
    destruct (proj2 (elem_of_basin_fish_of basin_name occurrence_table r))
      as (r' & Hr' & _); [auto |].
    unfold species_column in El. apply fmap_nil_inv in El.
    fold (basin_fish_of basin_name occurrence_table) in El.
    rewrite El in Hr'. inversion Hr'.
Qed.

(** X2. The species list is the inventory of the basin: it has no
    duplicates and holds exactly the species-name fields (a missing name
    included) of the records that carry the basin name. *)
Theorem X2_species_list_is_inventory
    (basin_name : string) (occurrence_table : list Occurrence) :
  let d := get_basin_fish_diversity basin_name (range_index occurrence_table) in
  NoDup (species_list d)
  /\ forall o, o ∈ species_list d
               <-> exists r, r ∈ occurrence_table
                             /\ Basin_Name r = Some basin_name
                             /\ Fishbase_Valid_Species_Name r = o.
Proof.
  intros d.
  destruct (diversity_as_sets basin_name occurrence_table) as (_ & _ & _ & El).
  fold d in El. rewrite El. split; [apply NoDup_unique_from |].
  intros o. rewrite elem_of_unique. unfold species_column.
  rewrite list_elem_of_fmap. split.
  - intros (r & -> & Hr).
    destruct (proj1 (elem_of_basin_fish_of basin_name occurrence_table (snd r)))
      as [Hin Hb]; [eauto |].
    exists (snd r). auto.
  - intros (row & Hrow & Hb & <-).
    destruct (proj2 (elem_of_basin_fish_of basin_name occurrence_table row))
      as (r & Hr & <-); [auto |].
    exists r. auto.
Qed.

(** X3. The native count and the exotic count never exceed the total
    count. *)
Theorem X3_status_counts_at_most_total
    (basin_name : string) (occurrence_table : list Occurrence) :
  let d := get_basin_fish_diversity basin_name (range_index occurrence_table) in
  (native_species_count d <= species_count d)%nat
  /\ (exotic_species_count d <= species_count d)%nat.
Proof.
  intros d.
  destruct (diversity_as_sets basin_name occurrence_table) as (Ec & En & Ee & _).
  fold d in Ec, En, Ee. rewrite Ec, En, Ee.
  split; apply subseteq_size, names_in_status_subseteq.
Qed.

(** X4. When every record of the basin that names a species has the
    status [native] or [exotic], the total is at most native plus exotic;
    when no species of the basin is recorded under both statuses, native
    plus exotic is at most the total.  Under both conditions the two
    counts add up to the total. *)
Theorem X4_when_counts_add_up
    (basin_name : string) (occurrence_table : list Occurrence) :
  let d := get_basin_fish_diversity basin_name (range_index occurrence_table) in
  ((forall r, r ∈ occurrence_table -> Basin_Name r = Some basin_name ->
              Fishbase_Valid_Species_Name r <> None ->
              Native_Exotic_Status r = Some "native"
              \/ Native_Exotic_Status r = Some "exotic") ->
   (species_count d <= native_species_count d + exotic_species_count d)%nat)
  /\ ((forall r1 r2, r1 ∈ occurrence_table -> r2 ∈ occurrence_table ->
                     Basin_Name r1 = Some basin_name ->
                     Basin_Name r2 = Some basin_name ->
                     Native_Exotic_Status r1 = Some "native" ->
                     Native_Exotic_Status r2 = Some "exotic" ->
                     Fishbase_Valid_Species_Name r1 <> None ->
                     Fishbase_Valid_Species_Name r1 <> Fishbase_Valid_Species_Name r2) ->
      (native_species_count d + exotic_species_count d <= species_count d)%nat).
Proof.
  intros d.
  destruct (diversity_as_sets basin_name occurrence_table) as (Ec & En & Ee & _).
  fold d in Ec, En, Ee. rewrite Ec, En, Ee.
  set (rows := basin_fish_of basin_name occurrence_table).
  split.
  - intros Hstatus.
    assert (Hsub : names_in rows
                   ⊆ names_in (with_status "native" rows)
                     ∪ names_in (with_status "exotic" rows)).
    { intros s. rewrite elem_of_union, !elem_of_names_in. intros (r & Hr & Hs).
      destruct (proj1 (elem_of_basin_fish_of basin_name occurrence_table (snd r)))
        as [Hin Hb]; [eauto |].
      destruct (Hstatus _ Hin Hb) as [Hst | Hst]; [congruence | |];
        [left | right]; exists r; (split; [| exact Hs]);
        apply elem_of_select; (split; [exact Hr | apply eq_str_true, Hst]). }
    apply subseteq_size in Hsub.
    rewrite size_union_alt in Hsub.
    pose proof (subseteq_size
                  (names_in (with_status "exotic" rows)
                   ∖ names_in (with_status "native" rows))
                  (names_in (with_status "exotic" rows))) as Hdiff.
    specialize (Hdiff (subseteq_difference_l _ _ _ (reflexivity _))). lia.
  - intros Hexcl.
    assert (Hdisj : names_in (with_status "native" rows)
                    ## names_in (with_status "exotic" rows)).
    { intros s. rewrite !elem_of_names_in. intros (r1 & Hr1 & Hs1) (r2 & Hr2 & Hs2).
      apply elem_of_select in Hr1 as [Hr1 Hst1], Hr2 as [Hr2 Hst2].
      apply eq_str_true in Hst1, Hst2.
      destruct (proj1 (elem_of_basin_fish_of basin_name occurrence_table (snd r1)))
        as [Hin1 Hb1]; [eauto |].
      destruct (proj1 (elem_of_basin_fish_of basin_name occurrence_table (snd r2)))
        as [Hin2 Hb2]; [eauto |].
      apply (Hexcl _ _ Hin1 Hin2 Hb1 Hb2 Hst1 Hst2); congruence. }
    rewrite <- (size_union _ _ Hdisj).
    apply subseteq_size, union_least; apply names_in_status_subseteq.
Qed.

(** X5. The species list is one longer than the total count when some
    record of the basin has no species name, and as long as the total count
    otherwise: the list keeps the missing value that the count drops. *)
Theorem X5_species_list_keeps_missing_name
    (basin_name : string) (occurrence_table : list Occurrence) :
  let d := get_basin_fish_diversity basin_name (range_index occurrence_table) in
  ((exists r, r ∈ occurrence_table /\ Basin_Name r = Some basin_name
              /\ Fishbase_Valid_Species_Name r = None)
   -> length (species_list d) = S (species_count d))
  /\ ((forall r, r ∈ occurrence_table -> Basin_Name r = Some basin_name ->
                 Fishbase_Valid_Species_Name r <> None)
      -> length (species_list d) = species_count d).
Proof.
  intros d.
  destruct (diversity_counts basin_name (range_index occurrence_table))
    as (Ec & _ & _ & El).
  fold d in Ec, El. rewrite Ec, El, length_unique.
  fold (basin_fish_of basin_name occurrence_table).
  set (rows := basin_fish_of basin_name occurrence_table).
  assert (Hnone : None ∈ species_column rows
                  <-> exists r, r ∈ occurrence_table /\ Basin_Name r = Some basin_name
                                /\ Fishbase_Valid_Species_Name r = None).
  { unfold species_column. rewrite list_elem_of_fmap. split.
    - intros (r & E & Hr).
      destruct (proj1 (elem_of_basin_fish_of basin_name occurrence_table (snd r)))
        as [Hin Hb]; [eauto |].
      exists (snd r). auto.
    - intros (row & Hrow & Hb & E).
      destruct (proj2 (elem_of_basin_fish_of basin_name occurrence_table row))
        as (r & Hr & <-); [auto |].
      exists r. auto. }
  split.
  - intros Hex. rewrite bool_decide_eq_true_2 by (apply Hnone, Hex). lia.
  - intros Hall. rewrite bool_decide_eq_false_2; [lia |].
    rewrite Hnone. intros (r & Hr & Hb & E). apply (Hall r Hr Hb E).
Qed.

(** X6. The counts do not depend on the order of the rows of the
    occurrence table, and the species list changes by a permutation
    only. *)
Theorem X6_counts_ignore_row_order
    (basin_name : string) (table1 table2 : list Occurrence) :
  table1 ≡ₚ table2 ->
  let d1 := get_basin_fish_diversity basin_name (range_index table1) in
  let d2 := get_basin_fish_diversity basin_name (range_index table2) in
  species_count d1 = species_count d2
  /\ native_species_count d1 = native_species_count d2
  /\ exotic_species_count d1 = exotic_species_count d2
  /\ species_list d1 ≡ₚ species_list d2.
Proof.
  intros Hperm d1 d2.
  destruct (diversity_as_sets basin_name table1) as (Ec1 & En1 & Ee1 & El1).
  destruct (diversity_as_sets basin_name table2) as (Ec2 & En2 & Ee2 & El2).
  fold d1 in Ec1, En1, Ee1, El1. fold d2 in Ec2, En2, Ee2, El2.
  assert (Hrows : forall row,
            (exists r, r ∈ basin_fish_of basin_name table1 /\ snd r = row)
            <-> (exists r, r ∈ basin_fish_of basin_name table2 /\ snd r = row)).
  { intros row. rewrite !elem_of_basin_fish_of, Hperm. reflexivity. }
  assert (Hst : forall st s,
            s ∈ names_in (with_status st (basin_fish_of basin_name table1))
            <-> s ∈ names_in (with_status st (basin_fish_of basin_name table2))).
  { intros st s. rewrite !elem_of_names_in.
    split; intros (r & Hr & Hs); apply elem_of_select in Hr as [Hr Hstat].
    - destruct (proj1 (Hrows (snd r))) as (r' & Hr' & E); [eauto |].
      exists r'. rewrite E. split; [| exact Hs].
      apply elem_of_select. rewrite E. auto.
    - destruct (proj2 (Hrows (snd r))) as (r' & Hr' & E); [eauto |].
      exists r'. rewrite E. split; [| exact Hs].
      apply elem_of_select. rewrite E. auto. }
  rewrite Ec1, Ec2, En1, En2, Ee1, Ee2, El1, El2. repeat split.
  - f_equal. apply set_eq. intros s. rewrite !elem_of_names_in.
    split; intros (r & Hr & Hs).
    + destruct (proj1 (Hrows (snd r))) as (r' & Hr' & E); [eauto |].
      exists r'. rewrite E. auto.
    + destruct (proj2 (Hrows (snd r))) as (r' & Hr' & E); [eauto |].
      exists r'. rewrite E. auto.
  - f_equal. apply set_eq, Hst.
  - f_equal. apply set_eq, Hst.
  - apply NoDup_Permutation; try apply NoDup_unique_from.
    intros o. rewrite !elem_of_unique. unfold species_column.
    rewrite !list_elem_of_fmap. split; intros (r & -> & Hr).
    + destruct (proj1 (Hrows (snd r))) as (r' & Hr' & E); [eauto |].
      exists r'. rewrite E. auto.
    + destruct (proj2 (Hrows (snd r))) as (r' & Hr' & E); [eauto |].
      exists r'. rewrite E. auto.
Qed.

Lemma X6_counts_ignore_row_order_witness :
  let d1 := get_basin_fish_diversity "Ganges" (range_index demo_occ) in
  let d2 := get_basin_fish_diversity "Ganges" (range_index (rev demo_occ)) in
  species_count d1 = species_count d2
  /\ native_species_count d1 = native_species_count d2
  /\ exotic_species_count d1 = exotic_species_count d2
  /\ species_list d1 ≡ₚ species_list d2.
Proof.
  apply (X6_counts_ignore_row_order "Ganges" demo_occ (rev demo_occ)).
  apply Permutation_rev.
Defined.

(** Every Ganges record of the demonstration table is native or exotic and
    no species is both: 2 + 1 = 3. *)
Lemma X4_when_counts_add_up_witness :
  let d := get_basin_fish_diversity "Ganges" (range_index demo_occ) in
  (species_count d <= native_species_count d + exotic_species_count d)%nat
  /\ (native_species_count d + exotic_species_count d <= species_count d)%nat.
Proof.
  split.
  - apply (proj1 (X4_when_counts_add_up "Ganges" demo_occ)).
    intros r Hr Hb _. unfold demo_occ in Hr.
    repeat (apply elem_of_cons in Hr as [-> | Hr];
            [simpl in Hb |- *; try discriminate; auto |]).
    inversion Hr.
  - apply (proj2 (X4_when_counts_add_up "Ganges" demo_occ)).
    intros r1 r2 Hr1 Hr2 Hb1 Hb2 Hs1 Hs2 _. unfold demo_occ in Hr1, Hr2.
    repeat (apply elem_of_cons in Hr1 as [-> | Hr1];
            [simpl in Hb1, Hs1; try discriminate;
             repeat (apply elem_of_cons in Hr2 as [-> | Hr2];
                     [simpl in Hb2, Hs2 |- *; try discriminate |]);
             inversion Hr2 |]).
    inversion Hr1.
Defined.

(** A table in which one record of the basin has no species name. *)
Definition demo_occ_missing : list Occurrence :=
  [ mkOccurrence (Some "Volga") (Some "native") (Some "A");
    mkOccurrence (Some "Volga") (Some "native") None;
    mkOccurrence (Some "Volga") (Some "exotic") (Some "B") ].

Lemma X5_species_list_keeps_missing_name_witness :
  let d := get_basin_fish_diversity "Volga" (range_index demo_occ_missing) in
  length (species_list d) = S (species_count d).
Proof.
  apply (proj1 (X5_species_list_keeps_missing_name "Volga" demo_occ_missing)).
  exists (mkOccurrence (Some "Volga") (Some "native") None).
  split; [| split; reflexivity].
  apply list_elem_of_further, list_elem_of_here.
Defined.

(* ===================================================================== *)
(** * Further properties: the pairwise metrics and the orchestrator        *)
(* ===================================================================== *)

Lemma size_union_intersection `{Countable A} (X Y : gset A) :
  (size (X ∪ Y) + size (X ∩ Y) = size X + size Y)%nat.
Proof.
  rewrite size_union_alt.
  assert (Hsz : size Y = (size (Y ∖ X) + size (X ∩ Y))%nat).
  { rewrite <- size_union.
    - apply (f_equal size). apply set_eq. intros a.
      rewrite elem_of_union, elem_of_difference, elem_of_intersection.
      destruct (decide (a ∈ X)); tauto.
    - intros a. rewrite elem_of_difference, elem_of_intersection. tauto. }
  lia.
Qed.

(** ** The objects of the species lists *)

Lemma objects_NoDup occ_df call (l : list (option string)) :
  NoDup l -> NoDup (objects occ_df call l).
Proof.
  intros Hl. unfold objects. apply NoDup_fmap_2_strong; [| exact Hl].
  intros [a |] [b |] _ _; destruct (float64_column (species_column occ_df));
    intros E; congruence.
Qed.

Lemma size_objects occ_df call (l : list (option string)) :
  NoDup l -> size (list_to_set (objects occ_df call l) : gset species_obj) = length l.
Proof.
  intros Hl. rewrite size_list_to_set by (apply objects_NoDup, Hl).
  unfold objects. apply length_map.
Qed.




Lemma NoDup_species_list basin_name (occ_df : list (Z * Occurrence)) :
  NoDup (species_list (get_basin_fish_diversity basin_name occ_df)).
Proof.
  destruct (diversity_counts basin_name occ_df) as (_ & _ & _ & El).
  rewrite El. apply NoDup_unique_from.
Qed.



Section Extremes.
Context `{Rounding}.


Lemma RN_near (x : Q) : (0 <= x)%Q -> (Qabs (RN x - x) <= x * unit_roundoff)%Q.
Proof.
  intros Hx. pose proof (RN_error x) as E.
  rewrite (Qabs_pos x Hx) in E. exact E.
Qed.

(** X7. The pairwise metrics do not depend on which basin is the sender
    and which the receiver. *)
Theorem X7_jaccard_symmetric (sender_species receiver_species : gset species_obj) :
  jaccard sender_species receiver_species = jaccard receiver_species sender_species.
Proof.
  unfold jaccard.
  assert (Ei : receiver_species ∩ sender_species = sender_species ∩ receiver_species).
  { apply set_eq. intros a. rewrite !elem_of_intersection. tauto. }
  assert (Eu : receiver_species ∪ sender_species = sender_species ∪ receiver_species).
  { apply set_eq. intros a. rewrite !elem_of_union. tauto. }
  rewrite (andb_comm (Nat.eqb (size receiver_species) 0)), Ei, Eu.
  reflexivity.
Qed.



End Extremes.

(** A table without any species name: two records of one basin. *)
Definition demo_nameless : list Occurrence :=
  [ mkOccurrence (Some "Ganges") (Some "native") None;
    mkOccurrence (Some "Ganges") (Some "exotic") None;
    mkOccurrence (Some "Nile") (Some "native") None ].


(** ** The orchestrator, stage by stage *)

(** The row [main] assembles once the two basins of a project are
    resolved. *)
Definition result_row `{Rounding} (occ_df : list (Z * Occurrence))
    (project : Project.t) (sender_basin receiver_basin : string) : Result :=
  let sender_diversity := get_basin_fish_diversity sender_basin occ_df in
  let receiver_diversity := get_basin_fish_diversity receiver_basin occ_df in
  let sender_species : gset species_obj :=
    list_to_set (objects occ_df 0 (species_list sender_diversity)) in
  let receiver_species : gset species_obj :=
    list_to_set (objects occ_df 1 (species_list receiver_diversity)) in
  mkResult (Project.rank project) (Project.basin_pair project)
    (Project.project project) (Project.design_flow project)
    sender_basin receiver_basin
    (species_count sender_diversity)
    (native_species_count sender_diversity)
    (exotic_species_count sender_diversity)
    (species_count receiver_diversity)
    (native_species_count receiver_diversity)
    (exotic_species_count receiver_diversity)
    (fst (jaccard sender_species receiver_species))
    (snd (jaccard sender_species receiver_species))
    (size (sender_species ∩ receiver_species))
    (size (sender_species ∪ receiver_species)).

(** The project [parse_ibt_coordinates] builds from a row and its two
    parsed coordinate pairs. *)
Definition project_of (row : Ibt.row) (sender receiver : float * float) : Project.t :=
  Project.mk (Ibt.rank row) (Ibt.basin_pair row) (Ibt.project row)
    (Ibt.design_flow row) (fst sender) (snd sender) (fst receiver) (snd receiver).

Section Orchestrator.
Context `{Rounding} {G : Type} `{Geometry G}.

Lemma find_basin_cases (lat lon : float) (records : list (Basin G)) :
  (records = []
   /\ find_basin_by_coordinates lat lon (load_shapefile records)
      = ([], Raised (ValueError (py "attempt to get argmin of an empty sequence"))))
  \/ (exists out b,
        b ∈ records
        /\ find_basin_by_coordinates lat lon (load_shapefile records)
           = (out, Returned (BasinName b))).
Proof.
  destruct records as [| b0 records]; [left; split; reflexivity | right].
  destruct (first_true_or_none (contains_point lat lon) (b0 :: records))
    as [(pre & b & post & -> & Hpre & Hb) | Hnone].
  - exists [], b. split; [apply elem_of_app; right; apply list_elem_of_here |].
    apply find_basin_contained; assumption.
  - destruct (first_min_exists (distance_to lat lon) (b0 :: records))
      as (pre & b & post & E & Hpre & Hpost); [discriminate |].
    rewrite E in *. eexists _, b.
    split; [apply elem_of_app; right; apply list_elem_of_here |].
    apply find_basin_nearest; assumption.
Qed.

Variable basins_gdf : list (Z * Basin G).
Variable occ_df : list (Z * Occurrence).

(** The project is resolved to the two basins. *)
Definition resolved (project : Project.t) (sender_basin receiver_basin : string) : Prop :=
  snd (find_basin_by_coordinates (Project.sender_lat project)
         (Project.sender_lon project) basins_gdf) = Returned sender_basin
  /\ snd (find_basin_by_coordinates (Project.receiver_lat project)
            (Project.receiver_lon project) basins_gdf) = Returned receiver_basin.

Lemma main_body_inv project out result :
  main_body basins_gdf occ_df project = (out, Returned result) ->
  exists sender_basin receiver_basin,
    resolved project sender_basin receiver_basin
    /\ result = result_row occ_df project sender_basin receiver_basin.
Proof.
  unfold main_body, resolved.
  destruct (find_basin_by_coordinates _ _ basins_gdf) as [out1 [sb | e]];
    [| discriminate].
  destruct (find_basin_by_coordinates _ _ basins_gdf) as [out2 [rb | e]];
    [| discriminate].
  destruct (jaccard _ _) as [sim dis] eqn:E.
  intros [= _ <-]. exists sb, rb. split; [auto |].
  unfold result_row. rewrite E. reflexivity.
Qed.

Lemma main_body_returns project sender_basin receiver_basin :
  resolved project sender_basin receiver_basin ->
  exists out,
    main_body basins_gdf occ_df project
    = (out, Returned (result_row occ_df project sender_basin receiver_basin)).
Proof.
  unfold main_body, resolved. intros [Hs Hr].
  destruct (find_basin_by_coordinates _ _ basins_gdf) as [out1 s]. simpl in Hs. subst s.
  destruct (find_basin_by_coordinates _ _ basins_gdf) as [out2 r]. simpl in Hr. subst r.
  destruct (jaccard _ _) as [sim dis] eqn:E.
  eexists. unfold result_row. rewrite E. reflexivity.
Qed.

Lemma main_loop_inv ibt_projects out results :
  main_loop basins_gdf occ_df ibt_projects = (out, Returned results) ->
  Forall2 (fun project result =>
             exists sender_basin receiver_basin,
               resolved project sender_basin receiver_basin
               /\ result = result_row occ_df project sender_basin receiver_basin)
          ibt_projects results.
Proof.
  revert out results.
  induction ibt_projects as [| project rest IH]; intros out results; simpl.
  - intros [= _ <-]. constructor.
  - destruct (main_body basins_gdf occ_df project) as [out1 [result | e]] eqn:E1;
      [| discriminate].
    destruct (main_loop basins_gdf occ_df rest) as [out2 [results' | e]] eqn:E2;
      [| discriminate].
    intros [= _ <-]. constructor.
    + eapply main_body_inv, E1.
    + eapply IH. reflexivity.
Qed.

Lemma main_loop_returns ibt_projects :
  Forall (fun project => exists sb rb, resolved project sb rb) ibt_projects ->
  exists out results, main_loop basins_gdf occ_df ibt_projects = (out, Returned results).
Proof.
  induction 1 as [| project rest (sb & rb & Hres) _ (out' & results' & IH)]; simpl.
  - eauto.
  - destruct (main_body_returns project sb rb Hres) as [out Hbody].
    rewrite Hbody, IH. eauto.
Qed.
End Orchestrator.

Section ParseTable.
Context `{Rounding}.

Lemma parse_returns_iff (coord_str : str) :
  (exists r, parse_coordinate_string coord_str = Returned r)
  <-> has_token latitude_letters coord_str /\ has_token longitude_letters coord_str.
Proof.
  destruct (parse_cases coord_str) as [[Hraise Hmissing] | Hfound].
  - split.
    + intros [r Hr]. congruence.
    + intros [Hlat Hlon]. destruct Hmissing; contradiction.
  - destruct Hfound as (lm & om & num_lat & l_lat & num_lon & l_lon & vlat & vlon
                        & _ & _ & _ & _ & _ & _ & _ & _ & _ & _
                        & _ & _ & _ & _ & Hlat & Hlon & Hret).
    split; [auto | eauto].
Qed.

Lemma parse_raises_iff (coord_str : str) :
  parse_coordinate_string coord_str = Raised (could_not_parse coord_str)
  <-> ~ (has_token latitude_letters coord_str /\ has_token longitude_letters coord_str).
Proof.
  destruct (parse_cases coord_str) as [[Hraise Hmissing] | Hfound].
  - split; [| auto]. intros _ [Hlat Hlon]. destruct Hmissing; contradiction.
  - destruct Hfound as (lm & om & num_lat & l_lat & num_lon & l_lon & vlat & vlon
                        & _ & _ & _ & _ & _ & _ & _ & _ & _ & _
                        & _ & _ & _ & _ & Hlat & Hlon & Hret).
    split; [congruence | intros Hno; exfalso; auto].
Qed.

(** Both coordinate strings of a row hold their two tokens. *)
Definition row_parses (row : Ibt.row) : Prop :=
  (has_token latitude_letters (Ibt.sender_coordinates row)
   /\ has_token longitude_letters (Ibt.sender_coordinates row))
  /\ (has_token latitude_letters (Ibt.receiver_coordinates row)
      /\ has_token longitude_letters (Ibt.receiver_coordinates row)).

Lemma parse_ibt_inv ibt_df projects :
  parse_ibt_coordinates ibt_df = Returned projects ->
  Forall2 (fun row project =>
             exists sender receiver,
               parse_coordinate_string (Ibt.sender_coordinates row) = Returned sender
               /\ parse_coordinate_string (Ibt.receiver_coordinates row) = Returned receiver
               /\ project = project_of row sender receiver)
          ibt_df projects.
Proof.
  revert projects. induction ibt_df as [| row rest IH]; intros projects; simpl.
  - intros [= <-]. constructor.
  - destruct (parse_coordinate_string (Ibt.sender_coordinates row)) as [s | e] eqn:Es;
      [| discriminate].
    destruct (parse_coordinate_string (Ibt.receiver_coordinates row)) as [r | e] eqn:Er;
      [| discriminate].
    destruct (parse_ibt_coordinates rest) as [projects' | e]; [| discriminate].
    simpl. intros [= <-]. constructor; [| apply IH; reflexivity].
    exists s, r. auto.
Qed.

Lemma parse_ibt_returns ibt_df :
  Forall row_parses ibt_df ->
  exists projects, parse_ibt_coordinates ibt_df = Returned projects.
Proof.
  induction 1 as [| row rest [Hs Hr] _ [projects IH]]; simpl; [eauto |].
  apply parse_returns_iff in Hs as [s ->], Hr as [r ->].
  rewrite IH. simpl. eauto.
Qed.

Definition string_parses (coord_str : str) : Prop :=
  has_token latitude_letters coord_str /\ has_token longitude_letters coord_str.

Lemma parse_ibt_first_error pre row post :
  Forall row_parses pre ->
  (~ string_parses (Ibt.sender_coordinates row) ->
   parse_ibt_coordinates (pre ++ row :: post)
   = Raised (could_not_parse (Ibt.sender_coordinates row)))
  /\ (string_parses (Ibt.sender_coordinates row) ->
      ~ string_parses (Ibt.receiver_coordinates row) ->
      parse_ibt_coordinates (pre ++ row :: post)
      = Raised (could_not_parse (Ibt.receiver_coordinates row))).
Proof.
  intros Hpre. induction Hpre as [| row0 pre [Hs Hr] _ [IH1 IH2]]; simpl.
  - split.
    + intros Hbad. apply parse_raises_iff in Hbad. rewrite Hbad. reflexivity.
    + intros Hok Hbad. apply parse_returns_iff in Hok as [s ->].
      apply parse_raises_iff in Hbad. rewrite Hbad. reflexivity.
  - apply parse_returns_iff in Hs as [s ->], Hr as [r ->]. simpl. split.
    + intros Hbad. rewrite (IH1 Hbad). reflexivity.
    + intros Hok Hbad. rewrite (IH2 Hok Hbad). reflexivity.
Qed.
End ParseTable.

Section MainProperties.
Context `{Rounding} {G : Type} `{Geometry G}.
Implicit Types (shapefile : list (Basin G)) (occurrence_table : list Occurrence)
  (ibt_table : list Ibt.row).

Lemma main_inv shapefile occurrence_table ibt_table out results :
  main shapefile occurrence_table ibt_table = (out, Returned results) ->
  Forall2 (fun row result =>
             exists sender receiver sender_basin receiver_basin,
               parse_coordinate_string (Ibt.sender_coordinates row) = Returned sender
               /\ parse_coordinate_string (Ibt.receiver_coordinates row) = Returned receiver
               /\ resolved (load_shapefile shapefile) (project_of row sender receiver)
                    sender_basin receiver_basin
               /\ result = result_row (range_index occurrence_table)
                             (project_of row sender receiver) sender_basin receiver_basin)
          ibt_table results.
Proof.
  unfold main.
  destruct (parse_ibt_coordinates ibt_table) as [projects | e] eqn:Ep; [| discriminate].
  intros Hloop. apply parse_ibt_inv in Ep. apply main_loop_inv in Hloop.
  revert results Hloop. induction Ep as [| row project rows projects Hrow _ IH];
    intros results Hloop; inversion Hloop; subst; constructor.
  - destruct Hrow as (s & r & Hs & Hr & ->).
    match goal with
    | Hres : exists _ _, resolved _ _ _ _ /\ _ |- _ =>
        destruct Hres as (sb & rb & Hres & ->)
    end.
    exists s, r, sb, rb. auto.
  - apply IH. assumption.
Qed.

Lemma size_species_set call basin_name occurrence_table :
  let d := get_basin_fish_diversity basin_name (range_index occurrence_table) in
  size (list_to_set (objects (range_index occurrence_table) call (species_list d))
        : gset species_obj)
  = length (species_list d).
Proof.
  intros d. apply size_objects, NoDup_species_list.
Qed.

Lemma species_count_le_length basin_name occurrence_table :
  let d := get_basin_fish_diversity basin_name (range_index occurrence_table) in
  (species_count d <= length (species_list d))%nat.
Proof.
  intros d.
  destruct (diversity_counts basin_name (range_index occurrence_table)) as (Ec & _ & _ & El).
  fold d in Ec, El. rewrite Ec, El, length_unique. lia.
Qed.

Lemma species_count_eq_length basin_name occurrence_table :
  Forall (fun r => Fishbase_Valid_Species_Name r <> None) occurrence_table ->
  let d := get_basin_fish_diversity basin_name (range_index occurrence_table) in
  length (species_list d) = species_count d.
Proof.
  intros Hall d.
  destruct (diversity_counts basin_name (range_index occurrence_table)) as (Ec & _ & _ & El).
  fold d in Ec, El. rewrite Ec, El, length_unique.
  rewrite bool_decide_eq_false_2; [lia |].
  unfold species_column. rewrite list_elem_of_fmap. intros (r & E & Hr).
  apply elem_of_select in Hr as [Hr _].
  assert (Hin : snd r ∈ occurrence_table) by (apply elem_of_range_index_rows; eauto).
  eapply Forall_forall in Hall; [| exact Hin]. congruence.
Qed.

(** X9. In every row [main] produces, the shared count and each basin's
    species count are at most the union count; when no record of the
    occurrence table lacks its species name, the union count plus the
    shared count is the sum of the two species counts. *)
Theorem X9_row_counts_balance shapefile occurrence_table ibt_table out results result :
  main shapefile occurrence_table ibt_table = (out, Returned results) ->
  result ∈ results ->
  (shared_species_count result <= total_unique_species result)%nat
  /\ (sender_species_count result <= total_unique_species result)%nat
  /\ (receiver_species_count result <= total_unique_species result)%nat
  /\ (Forall (fun r => Fishbase_Valid_Species_Name r <> None) occurrence_table ->
      (total_unique_species result + shared_species_count result
       = sender_species_count result + receiver_species_count result)%nat).
Proof.
  intros Hmain Hin. apply main_inv in Hmain.
  apply list_elem_of_lookup in Hin as [i Hi].
  destruct (Forall2_lookup_r _ _ _ _ _ Hmain Hi)
    as (row & _ & s & r & sb & rb & _ & _ & _ & ->).
  unfold result_row. simpl.
  set (S := list_to_set (objects _ 0 (species_list (get_basin_fish_diversity sb _)))).
  set (R := list_to_set (objects _ 1 (species_list (get_basin_fish_diversity rb _)))).
  pose proof (size_union_intersection S R) as Hbal.
  pose proof (size_species_set 0 sb occurrence_table) as HS.
  pose proof (size_species_set 1 rb occurrence_table) as HR.
  pose proof (species_count_le_length sb occurrence_table) as HcS.
  pose proof (species_count_le_length rb occurrence_table) as HcR.
  simpl in HS, HR, HcS, HcR. fold S in HS. fold R in HR.
  assert (HsubS : (size S <= size (S ∪ R))%nat)
    by apply subseteq_size, union_subseteq_l.
  assert (HsubR : (size R <= size (S ∪ R))%nat)
    by apply subseteq_size, union_subseteq_r.
  assert (Hint : (size (S ∩ R) <= size S)%nat)
    by apply subseteq_size, intersection_subseteq_l.
  repeat split; try lia.
  intros Hall.
  pose proof (species_count_eq_length sb occurrence_table Hall) as ES.
  pose proof (species_count_eq_length rb occurrence_table Hall) as ER.
  simpl in ES, ER. lia.
Qed.

(** X10. [main] produces one row per project of the table, in the order
    of the table, each carrying the rank, the basin pair, the project name
    and the design flow of its project. *)
Theorem X10_rows_follow_project_table shapefile occurrence_table ibt_table out results :
  main shapefile occurrence_table ibt_table = (out, Returned results) ->
  Forall2 (fun row result =>
             rank result = Ibt.rank row
             /\ basin_pair result = Ibt.basin_pair row
             /\ project result = Ibt.project row
             /\ design_flow result = Ibt.design_flow row)
          ibt_table results.
Proof.
  intros Hmain. apply main_inv in Hmain.
  eapply Forall2_impl; [exact Hmain |]. simpl.
  intros row result (s & r & sb & rb & _ & _ & _ & ->). auto.
Qed.

(** X11. [main] returns its rows exactly when every coordinate string of
    the project table holds a latitude and a longitude token and, unless
    the table is empty, the shapefile has at least one record. *)
Theorem X11_main_returns_iff shapefile occurrence_table ibt_table :
  (exists out results,
      main shapefile occurrence_table ibt_table = (out, Returned results))
  <-> Forall row_parses ibt_table /\ (ibt_table = [] \/ shapefile <> []).
Proof.
  split.
  - intros (out & results & Hmain). apply main_inv in Hmain. split.
    + clear -Hmain. induction Hmain as [| row result rows results Hrow _ IH];
        constructor; [| exact IH].
      destruct Hrow as (s & r & sb & rb & Hs & Hr & _).
      split; apply parse_returns_iff; eauto.
    + destruct Hmain as [| row result rows results Hrow _]; [auto | right].
      destruct Hrow as (s & r & sb & rb & _ & _ & [Hsb _] & _).
      intros ->. rewrite find_basin_empty in Hsb. discriminate.
  - intros [Hparse Hshape]. unfold main.
    destruct (parse_ibt_returns _ Hparse) as [projects Ep]. rewrite Ep.
    apply main_loop_returns.
    destruct Hshape as [-> | Hne].
    + simpl in Ep. injection Ep as <-. constructor.
    + apply Forall_forall. intros project _. unfold resolved.
      destruct (find_basin_cases (Project.sender_lat project)
                  (Project.sender_lon project) shapefile)
        as [[E _] | (out1 & b1 & _ & E1)]; [contradiction |].
      destruct (find_basin_cases (Project.receiver_lat project)
                  (Project.receiver_lon project) shapefile)
        as [[E _] | (out2 & b2 & _ & E2)]; [contradiction |].
      exists (BasinName b1), (BasinName b2). rewrite E1, E2. auto.
Qed.

(** X12. Every row is derived from its project: the sender and receiver
    basins are those located for the coordinates parsed from the project's
    two strings, they are names of shapefile records, and the six species
    counts are those of the aggregator for these two basins. *)
Theorem X12_row_provenance shapefile occurrence_table ibt_table out results :
  main shapefile occurrence_table ibt_table = (out, Returned results) ->
  Forall2 (fun row result =>
             exists sender receiver,
               parse_coordinate_string (Ibt.sender_coordinates row) = Returned sender
               /\ parse_coordinate_string (Ibt.receiver_coordinates row) = Returned receiver
               /\ snd (find_basin_by_coordinates (fst sender) (snd sender)
                         (load_shapefile shapefile))
                  = Returned (sender_basin result)
               /\ snd (find_basin_by_coordinates (fst receiver) (snd receiver)
                         (load_shapefile shapefile))
                  = Returned (receiver_basin result)
               /\ sender_basin result ∈ map BasinName shapefile
               /\ receiver_basin result ∈ map BasinName shapefile
               /\ let ds := get_basin_fish_diversity (sender_basin result)
                              (range_index occurrence_table) in
                  let dr := get_basin_fish_diversity (receiver_basin result)
                              (range_index occurrence_table) in
                  sender_species_count result = species_count ds
                  /\ sender_native_count result = native_species_count ds
                  /\ sender_exotic_count result = exotic_species_count ds
                  /\ receiver_species_count result = species_count dr
                  /\ receiver_native_count result = native_species_count dr
                  /\ receiver_exotic_count result = exotic_species_count dr)
          ibt_table results.
Proof.
  intros Hmain. apply main_inv in Hmain.
  eapply Forall2_impl; [exact Hmain |]. simpl.
  intros row result (s & r & sb & rb & Hs & Hr & [Hsb Hrb] & ->).
  exists s, r. simpl in Hsb, Hrb.
  assert (Hname : forall lat lon name,
            snd (find_basin_by_coordinates lat lon (load_shapefile shapefile))
            = Returned name -> name ∈ map BasinName shapefile).
  { intros lat lon name E.
    destruct (find_basin_cases lat lon shapefile) as [[_ E'] | (o & b & Hb & E')];
      rewrite E' in E; [discriminate |].
    simpl in E. injection E as <-. apply list_elem_of_fmap. eauto. }
  repeat split; try assumption; try reflexivity.
  - eapply Hname, Hsb.
  - eapply Hname, Hrb.
Qed.

(** X13. A coordinate string without its two tokens is fatal for the whole
    run: [main] processes no project, so that no line of the project loop
    is printed, and raises the [ValueError] of the first such string, rows
    in table order and the sender string before the receiver string.  (The
    two constant lines printed before the table is parsed are not part of
    the modelled output.) *)
Theorem X13_first_bad_string_aborts_run shapefile occurrence_table pre row post :
  Forall row_parses pre ->
  (~ string_parses (Ibt.sender_coordinates row) ->
   main shapefile occurrence_table (pre ++ row :: post)
   = ([], Raised (could_not_parse (Ibt.sender_coordinates row))))
  /\ (string_parses (Ibt.sender_coordinates row) ->
      ~ string_parses (Ibt.receiver_coordinates row) ->
      main shapefile occurrence_table (pre ++ row :: post)
      = ([], Raised (could_not_parse (Ibt.receiver_coordinates row)))).
Proof.
  intros Hpre. destruct (parse_ibt_first_error pre row post Hpre) as [H1 H2].
  unfold main. split.
  - intros Hbad. rewrite (H1 Hbad). reflexivity.
  - intros Hok Hbad. rewrite (H2 Hok Hbad). reflexivity.
Qed.

(** X14. With an empty shapefile and a project table whose strings all
    parse, [main] aborts at the first project: of the lines of the project
    loop it prints only the one that announces this project, and it raises
    the [ValueError] of the empty distance series. *)
Theorem X14_empty_shapefile_aborts_at_first_project occurrence_table row rest :
  Forall row_parses (row :: rest) ->
  main (@nil (Basin G)) occurrence_table (row :: rest)
  = ([Processing (Ibt.rank row) (Ibt.basin_pair row)],
     Raised (ValueError (py "attempt to get argmin of an empty sequence"))).
Proof.
  intros Hparse. unfold main.
  destruct (parse_ibt_returns _ Hparse) as [projects Ep]. rewrite Ep.
  apply parse_ibt_inv in Ep. inversion Ep as [| ? project ? projects' Hrow _]; subst.
  destruct Hrow as (s & r & _ & _ & ->).
  cbn [main_loop]. unfold main_body.
  rewrite find_basin_empty. reflexivity.
Qed.
End MainProperties.

(** A project inside one basin, on the table without any species name:
    the row counts no shared species and two species in the union, with
    similarity 0 and dissimilarity 1. *)
Definition demo_inside : list Ibt.row :=
  [ Ibt.mk 1 "Ganges-Ganges" "Inside" "1" (py "25 °N 80 °E") (py "26 °N 85 °E") ].

Lemma nameless_table_row :
  exists out results,
    main demo_basins demo_nameless demo_inside = (out, Returned results)
    /\ map (fun r => (sender_basin r, receiver_basin r,
                      sender_species_count r, receiver_species_count r,
                      shared_species_count r, total_unique_species r)) results
       = [("Ganges", "Ganges", 0, 0, 0, 2)%nat]
    /\ Forall (fun r => (jaccard_similarity r == 0)%Q
                        /\ (jaccard_dissimilarity r == 1)%Q) results.
Proof.
  eexists _, _. split; [vm_compute; reflexivity |].
  split; [reflexivity |]. repeat constructor.
Qed.

Lemma X9_row_counts_balance_witness :
  (shared_species_count demo_row <= total_unique_species demo_row)%nat
  /\ (sender_species_count demo_row <= total_unique_species demo_row)%nat
  /\ (receiver_species_count demo_row <= total_unique_species demo_row)%nat
  /\ (Forall (fun r => Fishbase_Valid_Species_Name r <> None) demo_occ ->
      (total_unique_species demo_row + shared_species_count demo_row
       = sender_species_count demo_row + receiver_species_count demo_row)%nat).
Proof.
  eapply (X9_row_counts_balance demo_basins demo_occ demo_ibt _ _ demo_row).
  - vm_compute. reflexivity.
  - apply list_elem_of_here.
Defined.


(** The rows of the demonstration run. *)
Definition demo_results : list Result :=
  match snd (main demo_basins demo_occ demo_ibt) with
  | Returned results => results
  | Raised _ => []
  end.

Lemma demo_main_returns :
  exists out, main demo_basins demo_occ demo_ibt = (out, Returned demo_results).
Proof. eexists. vm_compute. reflexivity. Qed.

Lemma X10_rows_follow_project_table_witness :
  Forall2 (fun row result =>
             rank result = Ibt.rank row
             /\ basin_pair result = Ibt.basin_pair row
             /\ project result = Ibt.project row
             /\ design_flow result = Ibt.design_flow row)
          demo_ibt demo_results.
Proof.
  eapply (X10_rows_follow_project_table demo_basins demo_occ demo_ibt).
  vm_compute. reflexivity.
Defined.

Lemma X12_row_provenance_witness :
  Forall2 (fun row result =>
             exists sender receiver,
               parse_coordinate_string (Ibt.sender_coordinates row) = Returned sender
               /\ parse_coordinate_string (Ibt.receiver_coordinates row) = Returned receiver
               /\ snd (find_basin_by_coordinates (fst sender) (snd sender)
                         (load_shapefile demo_basins))
                  = Returned (sender_basin result)
               /\ snd (find_basin_by_coordinates (fst receiver) (snd receiver)
                         (load_shapefile demo_basins))
                  = Returned (receiver_basin result)
               /\ sender_basin result ∈ map BasinName demo_basins
               /\ receiver_basin result ∈ map BasinName demo_basins
               /\ let ds := get_basin_fish_diversity (sender_basin result)
                              (range_index demo_occ) in
                  let dr := get_basin_fish_diversity (receiver_basin result)
                              (range_index demo_occ) in
                  sender_species_count result = species_count ds
                  /\ sender_native_count result = native_species_count ds
                  /\ sender_exotic_count result = exotic_species_count ds
                  /\ receiver_species_count result = species_count dr
                  /\ receiver_native_count result = native_species_count dr
                  /\ receiver_exotic_count result = exotic_species_count dr)
          demo_ibt demo_results.
Proof.
  eapply (X12_row_provenance demo_basins demo_occ demo_ibt).
  vm_compute. reflexivity.
Defined.

(** A project table whose second row gives its receiver without a degree
    sign. *)
Definition demo_bad_row : Ibt.row :=
  Ibt.mk 3 "Y" "Demo3" "5" (py "1 °N 2 °E") (py "3 N 4 E").

Lemma no_token_without_degree letters s :
  DEGREE_SIGN ∉ s -> ~ has_token letters s.
Proof.
  intros Hno (pre & num & ws & l & post & _ & _ & _ & ->). apply Hno.
  unfold token. rewrite !elem_of_app. right. left. right. right.
  apply list_elem_of_here.
Qed.

Lemma demo_rows_parse : Forall row_parses demo_ibt.
Proof.
  unfold demo_ibt.
  repeat (constructor;
          [split; apply parse_returns_iff; eexists; vm_compute; reflexivity |]).
  constructor.
Qed.

Ltac not_in_text :=
  let Hin := fresh "Hin" in
  intros Hin; vm_compute in Hin;
  repeat (apply elem_of_cons in Hin as [Hin | Hin]; [discriminate |]);
  inversion Hin.

Lemma X13_first_bad_string_aborts_run_witness :
  main demo_basins demo_occ (demo_ibt ++ demo_bad_row :: [])
  = ([], Raised (could_not_parse (py "3 N 4 E"))).
Proof.
  apply (proj2 (X13_first_bad_string_aborts_run demo_basins demo_occ demo_ibt
                  demo_bad_row [] demo_rows_parse)).
  - apply parse_returns_iff. eexists. vm_compute. reflexivity.
  - intros [Hlat _]. revert Hlat. apply no_token_without_degree. not_in_text.
Defined.

Lemma X14_empty_shapefile_aborts_at_first_project_witness :
  main (@nil (Basin Strip)) demo_occ demo_ibt
  = ([Processing 1 "Ganges-Nile"],
     Raised (ValueError (py "attempt to get argmin of an empty sequence"))).
Proof.
  apply (X14_empty_shapefile_aborts_at_first_project (G := Strip) demo_occ
           (Ibt.mk 1 "Ganges-Nile" "Demo" "≈ 200" (py "Varanasi 25.32 °N 83.01 °E")
              (py "30.0 °N 31.2 °E"))
           [Ibt.mk 2 "X" "Demo2" "1" (py "10.0 °S 20.0 °W") (py "0 °N 50 °E")]).
  apply demo_rows_parse.
Defined.

(* ===================================================================== *)
(** * Further properties: the locator on any frame                         *)
(* ===================================================================== *)

Section LocatorFrames.
Context {G : Type} `{Geometry G}.

Lemma iloc_distances (lat lon : float) (df : list (Z * Basin G)) (i : Z) :
  iloc (map (fun r => (fst r, distance_to lat lon (snd r))) df) i
  = match iloc df i with
    | Returned b => Returned (distance_to lat lon b)
    | Raised e => Raised e
    end.
Proof.
  unfold iloc. rewrite length_map.
  destruct (0 <=? (if (i <? 0)%Z then (i + Z.of_nat (length df))%Z else i))%Z;
    [| reflexivity].
  rewrite list_lookup_fmap.
  destruct (df !! _) as [r |]; reflexivity.
Qed.

(** The fallback on a frame with any index labels: the label of the first
    nearest row is used as a position. *)
Lemma find_basin_nearest_label (lat lon : float) (pre : list (Z * Basin G))
    (label : Z) (b : Basin G) (post : list (Z * Basin G)) :
  let df := pre ++ (label, b) :: post in
  Forall (fun r => contains_point lat lon (snd r) = false) df ->
  Forall (fun r => (distance_to lat lon b < distance_to lat lon (snd r))%Q) pre ->
  Forall (fun r => (distance_to lat lon b <= distance_to lat lon (snd r))%Q) post ->
  find_basin_by_coordinates lat lon df
  = match iloc df label with
    | Returned b' =>
        ([WarningNearest lat lon (BasinName b') (distance_to lat lon b')],
         Returned (BasinName b'))
    | Raised e => ([], Raised e)
    end.
Proof.
  intros df Hnone Hpre Hpost. unfold find_basin_by_coordinates.
  rewrite select_nil by exact Hnone. simpl.
  change (fun r : Z * Basin G => (fst r, distance (geometry (snd r)) (mkPoint lon lat)))
    with (fun r : Z * Basin G => (fst r, distance_to lat lon (snd r))).
  assert (Eidx : idxmin (map (fun r => (fst r, distance_to lat lon (snd r))) df)
                 = Returned label).
  { subst df. rewrite map_app. simpl map.
    rewrite idxmin_first_min; [reflexivity | |]; apply Forall_fmap.
    - eapply Forall_impl; [exact Hpre |]. auto.
    - eapply Forall_impl; [exact Hpost |]. auto. }
  rewrite Eidx, iloc_distances.
  destruct (iloc df label) as [b' | e]; reflexivity.
Qed.

(** X15. The lookup prints at most one line, and it prints one exactly
    when the polygon set is not empty and no polygon contains the
    point. *)
Theorem X15_warning_iff_no_polygon_contains
    (lat lon : float) (records : list (Basin G)) :
  let out := fst (find_basin_by_coordinates lat lon (load_shapefile records)) in
  (length out <= 1)%nat
  /\ (out <> []
      <-> records <> [] /\ Forall (fun b => contains_point lat lon b = false) records).
Proof.
  intros out. subst out.
  destruct records as [| b0 records].
  { split; [simpl; lia |]. split; [intros Hne; contradiction | intros [Hne _]; contradiction]. }
  destruct (first_true_or_none (contains_point lat lon) (b0 :: records))
    as [(pre & b & post & E & Hpre & Hb) | Hnone].
  - rewrite E, (find_basin_contained lat lon pre b post Hpre Hb). simpl.
    split; [lia |]. split; [contradiction |]. intros [_ Hall].
    apply Forall_app in Hall as [_ Hall]. inversion Hall; congruence.
  - destruct (first_min_exists (distance_to lat lon) (b0 :: records))
      as (pre & b & post & E & Hpre & Hpost); [discriminate |].
    rewrite E in *. rewrite (find_basin_nearest lat lon pre b post Hnone Hpre Hpost).
    simpl. split; [lia |]. split; [intros _ | discriminate].
    split; [destruct pre; discriminate | exact Hnone].
Qed.

(** X16. The nearest-polygon fallback reads the label of the nearest row
    as a position.  On a frame with arbitrary index labels it therefore
    returns the basin of the row at that position, warning with that row's
    name and distance, or raises [IndexError] when no row is there; it
    returns the nearest basin when the label of the nearest row is its
    position. *)
Theorem X16_fallback_reads_label_as_position
    (lat lon : float) (pre : list (Z * Basin G)) (label : Z) (b : Basin G)
    (post : list (Z * Basin G)) :
  let df := pre ++ (label, b) :: post in
  Forall (fun r => contains_point lat lon (snd r) = false) df ->
  Forall (fun r => (distance_to lat lon b < distance_to lat lon (snd r))%Q) pre ->
  Forall (fun r => (distance_to lat lon b <= distance_to lat lon (snd r))%Q) post ->
  (forall i b', (0 <= label)%Z -> df !! Z.to_nat label = Some (i, b') ->
     find_basin_by_coordinates lat lon df
     = ([WarningNearest lat lon (BasinName b') (distance_to lat lon b')],
        Returned (BasinName b')))
  /\ ((Z.of_nat (length df) <= label)%Z ->
      find_basin_by_coordinates lat lon df
      = ([], Raised (IndexError (py "single positional indexer is out-of-bounds"))))
  /\ (label = Z.of_nat (length pre) ->
      snd (find_basin_by_coordinates lat lon df) = Returned (BasinName b)).
Proof.
  intros df Hnone Hpre Hpost.
  pose proof (find_basin_nearest_label lat lon pre label b post Hnone Hpre Hpost) as E.
  fold df in E. rewrite E. clear E. unfold iloc.
  split; [| split].
  - intros i b' Hpos Hlk.
    destruct (Z.ltb_spec label 0) as [Hneg | _]; [lia |].
    destruct (Z.leb_spec 0 label) as [_ | Hneg]; [| lia].
    rewrite Hlk. reflexivity.
  - intros Hge.
    destruct (Z.ltb_spec label 0) as [Hneg | _]; [lia |].
    destruct (Z.leb_spec 0 label) as [_ | Hneg]; [| lia].
    rewrite lookup_ge_None_2 by lia. reflexivity.
  - intros ->.
    destruct (Z.ltb_spec (Z.of_nat (length pre)) 0) as [Hneg | _]; [lia |].
    destruct (Z.leb_spec 0 (Z.of_nat (length pre))) as [_ | Hneg]; [| lia].
    rewrite Nat2Z.id. subst df. rewrite list_lookup_middle by reflexivity.
    reflexivity.
Qed.
End LocatorFrames.

(** The demonstration frame without its first row, as a selection leaves
    it: the labels are 1 and 2.  The point at longitude 50 is nearest to
    the Indus strip, whose label 1 is the position of the Nile strip. *)
Definition demo_selection : list (Z * Basin Strip) :=
  [ (1%Z, mkBasin "Indus" (mkStrip 60 75)%Q); (2%Z, mkBasin "Nile" (mkStrip 20 30)%Q) ].

Lemma X16_fallback_reads_label_as_position_witness :
  find_basin_by_coordinates 0%Q 50%Q demo_selection
  = ([WarningNearest 0 50 "Nile" 20], Returned "Nile").
Proof.
  refine (proj1 (X16_fallback_reads_label_as_position 0%Q 50%Q []
                   1%Z (mkBasin "Indus" (mkStrip 60 75)%Q)
                   [(2%Z, mkBasin "Nile" (mkStrip 20 30)%Q)] _ _ _)
            2%Z (mkBasin "Nile" (mkStrip 20 30)%Q) _ eq_refl).
  - repeat constructor.
  - constructor.
  - repeat constructor. vm_compute. discriminate.
  - discriminate.
Defined.

(* ===================================================================== *)
(** * Further properties: the coordinate parser                            *)
(* ===================================================================== *)

Lemma has_token_needs letters s :
  has_token letters s ->
  DEGREE_SIGN ∈ s
  /\ (exists l, l ∈ letters /\ l ∈ s)
  /\ (exists d, d ∈ s /\ Py_UNICODE_ISDECIMAL d = true).
Proof.
  intros (pre & num & ws & l & post & Hn & _ & Hl & ->).
  destruct (magnitude_head _ Hn) as (d & num' & -> & Hd).
  unfold token. repeat split.
  - rewrite !elem_of_app. right. left. right. right. apply list_elem_of_here.
  - exists l. split; [exact Hl |].
    rewrite !elem_of_app. right. left. right. right.
    apply list_elem_of_further, list_elem_of_here.
  - exists d. split; [| exact Hd].
    rewrite !elem_of_app. right. left. left. apply list_elem_of_here.
Qed.

Section ParserMore.
Context `{Rounding}.

(** X17. A string is rejected when it holds no degree sign, or no decimal
    digit, or neither of the letters N and S, or neither of the letters E
    and W (the letters are upper case only). *)
Theorem X17_required_characters (coord_str : str) :
  DEGREE_SIGN ∉ coord_str
  \/ Forall (fun c => Py_UNICODE_ISDECIMAL c = false) coord_str
  \/ ((LETTER_N ∉ coord_str) /\ (LETTER_S ∉ coord_str))
  \/ ((LETTER_E ∉ coord_str) /\ (LETTER_W ∉ coord_str)) ->
  parse_coordinate_string coord_str = Raised (could_not_parse coord_str).
Proof.
  intros Hmiss. apply parse_raises_iff. intros [Hlat Hlon].
  destruct (has_token_needs _ _ Hlat) as (Hdeg & (l1 & Hl1 & Hin1) & (d & Hd & Hdig)).
  destruct (has_token_needs _ _ Hlon) as (_ & (l2 & Hl2 & Hin2) & _).
  destruct Hmiss as [Hno | [Hno | [[HnN HnS] | [HnE HnW]]]].
  - contradiction.
  - eapply Forall_forall in Hno; [| exact Hd]. congruence.
  - unfold latitude_letters in Hl1.
    apply elem_of_cons in Hl1 as [-> | Hl1]; [contradiction |].
    apply elem_of_cons in Hl1 as [-> | Hl1]; [contradiction | inversion Hl1].
  - unfold longitude_letters in Hl2.
    apply elem_of_cons in Hl2 as [-> | Hl2]; [contradiction |].
    apply elem_of_cons in Hl2 as [-> | Hl2]; [contradiction | inversion Hl2].
Qed.
End ParserMore.

(** Lower-case hemisphere letters are not accepted. *)
Lemma X17_required_characters_witness :
  parse_coordinate_string (py "25.32 °n 83.01 °e")
  = Raised (could_not_parse (py "25.32 °n 83.01 °e")).
Proof.
  apply (X17_required_characters (py "25.32 °n 83.01 °e")).
  right. right. left. split; not_in_text.
Defined.

(** ** Text after the matches *)

Lemma first_degree_prefix (x y z t r' : str) (c c' : codepoint) :
  DEGREE_SIGN ∉ x ->
  x ++ DEGREE_SIGN :: c' :: r' = y ++ DEGREE_SIGN :: c :: z ++ t ->
  exists r'', x ++ DEGREE_SIGN :: c' :: r'' = y ++ DEGREE_SIGN :: c :: z.
Proof.
  intros Hx E. apply app_eq_inv in E as [(k & E1 & E2) | (k & E1 & E2)].
  - destruct k as [| k0 k]; simpl in E2.
    + injection E2 as Ec Er. subst. exists z. rewrite app_nil_r. reflexivity.
    + injection E2 as Ek _. subst. exfalso. apply Hx.
      apply elem_of_app. right. apply list_elem_of_here.
  - destruct k as [| k0 [| k1 k]]; simpl in E2.
    + injection E2 as Ec Er. subst. exists z. rewrite app_nil_r. reflexivity.
    + injection E2 as Ek Ec Er. subst. exists (c :: z).
      rewrite <- app_assoc. reflexivity.
    + injection E2 as Ek Ec Er. subst. exists (k ++ DEGREE_SIGN :: c :: z).
      rewrite <- app_assoc. reflexivity.
Qed.

Section Suffix.
Variable letters : list codepoint.
Let pat := hemisphere_pattern letters.

Lemma match_here_extend b num ws letter rest t :
  match_here pat (b ++ token num ws letter ++ rest) = None ->
  match_here pat (b ++ token num ws letter ++ rest ++ t) = None.
Proof.
  intros Hnone. apply match_here_None.
  intros num' ws' l' r' Hn' Hw' Hl' E.
  rewrite !token_app, app_assoc in E. symmetry in E.
  apply first_degree_prefix in E as [r'' E].
  - destruct (match_here_token letters num' ws' l' r'' Hn' Hw' Hl') as (segs & Hsome & _).
    fold pat in Hsome. rewrite token_app, E in Hsome.
    rewrite token_app, app_assoc in Hnone. congruence.
  - rewrite elem_of_app. intros [Hin | Hin].
    + apply (magnitude_no_degree _ Hn' Hin).
    + apply (blanks_no_degree _ Hw' Hin).
Qed.

Lemma dead_extend pre num ws letter rest t :
  dead pat pre (token num ws letter ++ rest) ->
  dead pat pre (token num ws letter ++ rest ++ t).
Proof.
  intros Hdead a b E Hb. apply match_here_extend, (Hdead a b E Hb).
Qed.

Lemma re_search_extend s m t :
  re_search pat s = Some m ->
  exists m', re_search pat (s ++ t) = Some m'
             /\ group m' 1 = group m 1 /\ group m' 2 = group m 2.
Proof.
  intros E. apply search_from_sound in E
    as (pre & w & segs & rest & -> & Hdead & Hw & ->).
  apply match_here_sound, Matches_token in Hw
    as (num & ws & l & Hn & Hws & Hl & -> & G1 & G2).
  rewrite <- !app_assoc.
  destruct (search_token letters pre num ws l (rest ++ t)) as (m' & Hm' & G1' & G2');
    try assumption.
  { apply dead_extend, Hdead. }
  exists m'. split; [exact Hm' |]. rewrite G1', G2'.
  unfold group. cbn [m_pattern m_segs]. unfold pat in *.
  split; symmetry; assumption.
Qed.
End Suffix.

Section ParserSuffix.
Context `{Rounding}.

(** X18. Text appended to an accepted string never changes the result:
    the parser reads the first latitude token and the first longitude
    token, and what follows them is not looked at. *)
Theorem X18_appended_text_is_ignored (coord_str t : str) (r : float * float) :
  parse_coordinate_string coord_str = Returned r ->
  parse_coordinate_string (coord_str ++ t) = Returned r.
Proof.
  intros Hparse.
  destruct (parse_cases coord_str) as [[Hraise _] | Hfound]; [congruence |].
  destruct Hfound as (lm & om & num_lat & l_lat & num_lon & l_lon & vlat & vlon
                      & Elat & Elon & G1 & G2 & G3 & G4 & _ & _ & Hl1 & Hl2
                      & Flat & _ & Flon & _ & _ & _ & Hret).
  rewrite Hparse in Hret. injection Hret as ->.
  destruct (re_search_extend latitude_letters _ _ t Elat) as (lm' & Elat' & G1' & G2').
  destruct (re_search_extend longitude_letters _ _ t Elon) as (om' & Elon' & G3' & G4').
  eapply parse_found; try eassumption; congruence.
Qed.
End ParserSuffix.

Lemma X18_appended_text_is_ignored_witness :
  parse_coordinate_string (py "25.32 °N 83.01 °E" ++ py " near 99 °S 99 °W")
  = Returned (25.32, 83.01)%Q.
Proof.
  apply (X18_appended_text_is_ignored (py "25.32 °N 83.01 °E") (py " near 99 °S 99 °W")).
  vm_compute. reflexivity.
Defined.

(* ===================================================================== *)
(** * Further properties: [parse_ibt_coordinates]                          *)
(* ===================================================================== *)

Section ParseTableMore.
Context `{Rounding}.

(** X19. [parse_ibt_coordinates] returns exactly when both coordinate
    strings of every row hold their two tokens; the projects it returns
    stand one per row in the order of the table, with the four descriptive
    fields copied and the coordinates parsed from the row's two strings. *)
Theorem X19_project_list_follows_table (ibt_df : list Ibt.row) :
  ((exists projects, parse_ibt_coordinates ibt_df = Returned projects)
   <-> Forall row_parses ibt_df)
  /\ (forall projects,
        parse_ibt_coordinates ibt_df = Returned projects ->
        Forall2 (fun row p =>
                   Project.rank p = Ibt.rank row
                   /\ Project.basin_pair p = Ibt.basin_pair row
                   /\ Project.project p = Ibt.project row
                   /\ Project.design_flow p = Ibt.design_flow row
                   /\ parse_coordinate_string (Ibt.sender_coordinates row)
                      = Returned (Project.sender_lat p, Project.sender_lon p)
                   /\ parse_coordinate_string (Ibt.receiver_coordinates row)
                      = Returned (Project.receiver_lat p, Project.receiver_lon p))
                ibt_df projects).
Proof.
  split; [split |].
  - intros [projects Ep]. apply parse_ibt_inv in Ep.
    induction Ep as [| row p rows projects (s & r & Hs & Hr & _) _ IH];
      constructor; [| exact IH].
    split; apply parse_returns_iff; eauto.
  - apply parse_ibt_returns.
  - intros projects Ep. apply parse_ibt_inv in Ep.
    eapply Forall2_impl; [exact Ep |]. simpl.
    intros row p (s & r & Hs & Hr & ->). destruct s, r. simpl.
    repeat split; assumption.
Qed.
End ParseTableMore.

(* ===================================================================== *)
(** * [src/visualize_top_projects.py]: the computations behind the charts  *)
(* ===================================================================== *)

(** [re.sub(r'[^\d.]', '', text)]: every character that is not a decimal
    digit or a full stop is removed. *)
Definition remove_non_numeric (text : str) : str := List.filter mag_char text.

(** [parse_flow_value], on the text [str(flow_str)]. *)
Definition parse_flow_value `{Rounding} (flow_str : str) : outcome float :=
  let numeric_str := remove_non_numeric flow_str in
  match numeric_str with
  | _ :: _ => float_of_str numeric_str
  | [] => Returned 0%Q
  end.

(** The colour and the risk level of [create_dissimilarity_gauge], and the
    colour [create_summary_comparison] gives to a dissimilarity bar. *)
Definition gauge_level `{Rounding} (dissimilarity : float) : string * string :=
  if Qlt_le_dec dissimilarity (RN 0.3) then ("green", "Low")
  else if Qlt_le_dec dissimilarity (RN 0.7) then ("orange", "Medium")
  else ("red", "High").

Definition bar_colour `{Rounding} (dissim : float) : string :=
  if Qlt_le_dec dissim (RN 0.3) then "green"
  else if Qlt_le_dec dissim (RN 0.7) then "orange"
  else "red".

(** Python's [max(a, b)] of two numbers: [b] when it is greater, else [a]. *)
Definition py_max (a b : float) : float := if Qlt_le_dec a b then b else a.

(** The product of two floats. *)
Definition float_mul `{Rounding} (x y : float) : float := RN (x * y)%Q.

(** The upper end of the value axis, [max(value * 1.1, 1)], of
    [create_flow_visualization] and [create_species_bar_chart]. *)
Definition axis_top `{Rounding} (value : float) : float :=
  py_max (float_mul value (RN 1.1)) 1.

(** The number of full stops of a text. *)
Definition stops (s : str) : nat := length (List.filter (fun c => c =? FULL_STOP) s).

(** ** [float] on texts of digits and full stops *)

Lemma remove_non_numeric_chars s : all_in mag_char (remove_non_numeric s).
Proof.
  apply Forall_forall. intros c Hc. unfold remove_non_numeric in Hc.
  apply list_elem_of_In, filter_In in Hc. apply Hc.
Qed.

Lemma remove_non_numeric_app s t :
  remove_non_numeric (s ++ t) = remove_non_numeric s ++ remove_non_numeric t.
Proof. apply List.filter_app. Qed.

Lemma remove_non_numeric_none s :
  Forall (fun c => mag_char c = false) s -> remove_non_numeric s = [].
Proof.
  induction 1 as [| c s Hc _ IH]; [reflexivity |].
  unfold remove_non_numeric in *. simpl. rewrite Hc. exact IH.
Qed.

Lemma remove_non_numeric_all s : all_in mag_char s -> remove_non_numeric s = s.
Proof.
  induction 1 as [| c s Hc _ IH]; [reflexivity |].
  unfold remove_non_numeric in *. simpl. rewrite Hc, IH. reflexivity.
Qed.

Lemma split_at_stop_fst_no_stop s : FULL_STOP ∉ fst (split_at_stop s).
Proof.
  induction s as [| c s IH]; simpl; [apply not_elem_of_nil |].
  destruct (N.eqb_spec c FULL_STOP) as [-> | Hne]; [apply not_elem_of_nil |].
  destruct (split_at_stop s) as [ip fp]. simpl in *.
  apply not_elem_of_cons. split; [congruence | exact IH].
Qed.

Lemma mag_chars_without_stop s : all_in mag_char s -> FULL_STOP ∉ s -> digits s.
Proof.
  intros Hall Hno. apply Forall_forall. intros c Hc.
  eapply Forall_forall in Hall; [| exact Hc].
  unfold mag_char in Hall. apply orb_true_iff in Hall as [Hd | Hs]; [exact Hd |].
  apply N.eqb_eq in Hs. subst c. contradiction.
Qed.

Lemma digits_value_None s acc c :
  c ∈ s -> Py_UNICODE_ISDECIMAL c = false -> digits_value acc s = None.
Proof.
  intros Hin Hc. revert acc. induction s as [| c0 s IH]; intros acc; [inversion Hin |].
  simpl. apply elem_of_cons in Hin as [<- | Hin].
  - unfold Py_UNICODE_ISDECIMAL in Hc.
    destruct (Py_UNICODE_TODECIMAL c); [discriminate | reflexivity].
  - destruct (Py_UNICODE_TODECIMAL c0); [apply IH, Hin | reflexivity].
Qed.

Lemma stops_app s t : stops (s ++ t) = (stops s + stops t)%nat.
Proof. unfold stops. rewrite List.filter_app, length_app. reflexivity. Qed.

Lemma stops_none s : FULL_STOP ∉ s -> stops s = 0%nat.
Proof.
  induction s as [| c s IH]; intros Hno; [reflexivity |].
  apply not_elem_of_cons in Hno as [Hc Hs]. unfold stops in *. simpl.
  destruct (N.eqb_spec c FULL_STOP) as [E | _]; [congruence | apply IH, Hs].
Qed.

Lemma stops_some s : FULL_STOP ∈ s -> (1 <= stops s)%nat.
Proof.
  induction s as [| c s IH]; intros Hin; [inversion Hin |].
  unfold stops in *. simpl.
  destruct (N.eqb_spec c FULL_STOP) as [E | Hne]; [simpl; lia |].
  apply elem_of_cons in Hin as [E | Hin]; [congruence | apply IH, Hin].
Qed.

Lemma stops_remove_non_numeric s : stops (remove_non_numeric s) = stops s.
Proof.
  induction s as [| c s IH]; [reflexivity |].
  unfold stops, remove_non_numeric in *. simpl. unfold mag_char at 1.
  destruct (N.eqb_spec c FULL_STOP) as [-> | Hne].
  - simpl. rewrite IH. reflexivity.
  - rewrite orb_false_r. destruct (Py_UNICODE_ISDECIMAL c); simpl.
    + destruct (N.eqb_spec c FULL_STOP); [contradiction | exact IH].
    + exact IH.
Qed.

Lemma digit_remove_non_numeric s d :
  Py_UNICODE_ISDECIMAL d = true -> d ∈ remove_non_numeric s <-> d ∈ s.
Proof.
  intros Hd. unfold remove_non_numeric. rewrite !list_elem_of_In, filter_In.
  unfold mag_char. rewrite Hd. simpl. tauto.
Qed.

Section FloatOfNumericText.
Context `{Rounding}.

Lemma float_of_str_numeric (kept : str) :
  all_in mag_char kept -> kept <> [] ->
  ((stops kept <= 1)%nat
   /\ (exists d, d ∈ kept /\ Py_UNICODE_ISDECIMAL d = true)
   /\ exists v, float_of_str kept = Returned v /\ (0 <= v)%Q)
  \/ (((2 <= stops kept)%nat \/ Forall (fun c => Py_UNICODE_ISDECIMAL c = false) kept)
      /\ float_of_str kept = Raised (could_not_convert kept)).
Proof.
  intros Hall Hne. pose proof (split_at_stop_eq kept) as E.
  pose proof (split_at_stop_fst_no_stop kept) as Hip.
  unfold float_of_str. destruct (split_at_stop kept) as [ip fpo]. simpl in E, Hip.
  assert (Hmag : all_in mag_char ip /\
                 all_in mag_char (match fpo with Some f => f | None => [] end)).
  { rewrite E in Hall. apply Forall_app in Hall as [H1 H2]. split; [exact H1 |].
    destruct fpo; [inversion H2; assumption | constructor]. }
  destruct Hmag as [Hmip Hmfp].
  pose proof (mag_chars_without_stop ip Hmip Hip) as Hdip.
  destruct (digits_value_Some ip 0 Hdip) as [i Ei]. rewrite Ei.
  destruct fpo as [fp |].
  - destruct (decide (FULL_STOP ∈ fp)) as [Hin | Hnin].
    + right. rewrite (digits_value_None fp 0 FULL_STOP Hin eq_refl). split.
      * left. rewrite E, stops_app. pose proof (stops_some fp Hin) as Hs.
        change (FULL_STOP :: fp) with ([FULL_STOP] ++ fp). rewrite stops_app.
        change (stops [FULL_STOP]) with 1%nat. lia.
      * destruct (ip ++ fp); reflexivity.
    + pose proof (mag_chars_without_stop fp Hmfp Hnin) as Hdfp.
      destruct (digits_value_Some fp 0 Hdfp) as [f Ef]. rewrite Ef.
      destruct (ip ++ fp) as [| c rest] eqn:Eapp.
      * right. split; [| reflexivity]. right.
        apply app_eq_nil in Eapp as [-> ->]. rewrite E. repeat constructor.
      * left. split; [| split].
        -- rewrite E, stops_app. change (FULL_STOP :: fp) with ([FULL_STOP] ++ fp).
           rewrite stops_app, (stops_none ip Hip), (stops_none fp Hnin).
           change (stops [FULL_STOP]) with 1%nat. lia.
        -- assert (Hc : c ∈ ip ++ fp) by (rewrite Eapp; apply list_elem_of_here).
           exists c. apply elem_of_app in Hc as [Hc | Hc].
           ++ split; [rewrite E; apply elem_of_app; auto |].
              eapply Forall_forall in Hdip; [exact Hdip | exact Hc].
           ++ split; [rewrite E; apply elem_of_app; right;
                      apply list_elem_of_further, Hc |].
              eapply Forall_forall in Hdfp; [exact Hdfp | exact Hc].
        -- eexists. split; [reflexivity |].
           apply RN_nonneg, (decimal_nonneg i f (length fp)).
  - rewrite app_nil_r in E. subst ip. simpl. rewrite app_nil_r.
    destruct kept as [| c rest]; [congruence |].
    left. split; [| split].
    + rewrite (stops_none _ Hip). lia.
    + exists c. split; [apply list_elem_of_here |]. inversion Hdip; assumption.
    + eexists. split; [reflexivity |]. apply RN_nonneg, (decimal_nonneg i 0 0).
Qed.

(** X20. A flow text without any decimal digit or full stop (the empty
    text, [nan], [n/a]) is read as 0, without an error. *)
Theorem X20_flow_without_number_is_zero (flow_str : str) :
  Forall (fun c => mag_char c = false) flow_str ->
  parse_flow_value flow_str = Returned 0%Q.
Proof.
  intros Hnone. unfold parse_flow_value.
  rewrite remove_non_numeric_none by exact Hnone. reflexivity.
Qed.

(** X21. Characters other than decimal digits and full stops are dropped
    wherever they stand, so the digits on both sides of them are read as
    one number: a prefix such as the approximation sign, a unit, a minus
    sign or a thousands separator changes nothing. *)
Theorem X21_flow_ignores_other_characters (s t u : str) :
  Forall (fun c => mag_char c = false) t ->
  parse_flow_value (s ++ t ++ u) = parse_flow_value (s ++ u).
Proof.
  intros Ht. unfold parse_flow_value.
  rewrite !remove_non_numeric_app, (remove_non_numeric_none t Ht). reflexivity.
Qed.

(** X22. [parse_flow_value] raises, with the [ValueError] of [float] on
    the digits and full stops kept, exactly when the text holds two or more
    full stops, or holds a full stop and no decimal digit; otherwise it
    returns a number that is not negative. *)
Theorem X22_flow_error_iff (flow_str : str) :
  let kept := remove_non_numeric flow_str in
  (parse_flow_value flow_str = Raised (could_not_convert kept)
   <-> (2 <= stops flow_str)%nat
       \/ ((1 <= stops flow_str)%nat
           /\ Forall (fun c => Py_UNICODE_ISDECIMAL c = false) flow_str))
  /\ (forall e, parse_flow_value flow_str = Raised e -> e = could_not_convert kept)
  /\ (forall v, parse_flow_value flow_str = Returned v -> (0 <= v)%Q).
Proof.
  intros kept. unfold parse_flow_value. fold kept.
  pose proof (remove_non_numeric_chars flow_str) as Hall. fold kept in Hall.
  pose proof (stops_remove_non_numeric flow_str) as Hstops. fold kept in Hstops.
  destruct kept as [| c rest] eqn:Ek.
  { split; [| split].
    - split; [discriminate |]. rewrite <- Hstops. simpl.
      intros [Hs | [Hs _]]; unfold stops in Hs; simpl in Hs; lia.
    - discriminate.
    - intros v [= <-]. discriminate. }
  rewrite <- Ek in *.
  assert (Hne : kept <> []) by (rewrite Ek; discriminate).
  assert (Hdig : Forall (fun c => Py_UNICODE_ISDECIMAL c = false) kept
                 -> Forall (fun c => Py_UNICODE_ISDECIMAL c = false) flow_str).
  { intros Hk. apply Forall_forall. intros d Hd.
    destruct (Py_UNICODE_ISDECIMAL d) eqn:Ed; [| reflexivity].
    apply (digit_remove_non_numeric flow_str d Ed) in Hd.
    eapply Forall_forall in Hk; [| exact Hd]. congruence. }
  destruct (float_of_str_numeric kept Hall Hne)
    as [(Hs & (d & Hd & Hdd) & v & Ev & Hv) | [Hbad Eraise]].
  - rewrite Ev. split; [| split].
    + split; [discriminate |]. rewrite <- Hstops.
      intros [H2 | [_ Hnod]]; [lia |].
      apply (digit_remove_non_numeric flow_str d Hdd) in Hd.
      eapply Forall_forall in Hnod; [| exact Hd]. congruence.
    + discriminate.
    + intros v' [= <-]. exact Hv.
  - rewrite Eraise. split; [| split].
    + split; [intros _ | reflexivity]. rewrite <- Hstops.
      destruct Hbad as [H2 | Hnod]; [left; exact H2 | right].
      split; [| apply Hdig, Hnod].
      destruct (decide (FULL_STOP ∈ kept)) as [Hin | Hnin];
        [apply stops_some, Hin |].
      exfalso. pose proof (mag_chars_without_stop kept Hall Hnin) as Hdk.
      rewrite Ek in Hdk, Hnod. inversion Hdk; inversion Hnod; congruence.
    + intros e [= <-]. reflexivity.
    + discriminate.
Qed.
End FloatOfNumericText.

(** The flow [≈ 200] of the project table, and a range read as one
    number. *)
Lemma X21_flow_ignores_other_characters_witness :
  parse_flow_value (py "≈ 200") = Returned 200%Q
  /\ parse_flow_value (py "10-20") = parse_flow_value (py "1020").
Proof.
  split.
  - rewrite (X21_flow_ignores_other_characters [] (py "≈ ") (py "200")).
    + vm_compute. reflexivity.
    + repeat constructor.
  - apply (X21_flow_ignores_other_characters (py "10") (py "-") (py "20")).
    repeat constructor.
Defined.

Lemma X20_flow_without_number_is_zero_witness :
  parse_flow_value (py "n/a") = Returned 0%Q.
Proof.
  apply (X20_flow_without_number_is_zero (py "n/a")). repeat constructor.
Defined.

(** ** The risk level of a dissimilarity *)

Section RiskLevel.
Context `{Rounding}.

Lemma RN_nonneg_bounds (x : Q) :
  (0 <= x)%Q -> (x - x * unit_roundoff <= RN x <= x + x * unit_roundoff)%Q.
Proof.
  intros Hx. pose proof (RN_bounds x) as B. rewrite (Qabs_pos x Hx) in B. exact B.
Qed.

Lemma thresholds_ordered : (0 < RN 0.3)%Q /\ (RN 0.3 < RN 0.7)%Q /\ (RN 0.7 < 1)%Q.
Proof.
  destruct (RN_nonneg_bounds 0.3 ltac:(discriminate)) as [L3 U3].
  destruct (RN_nonneg_bounds 0.7 ltac:(discriminate)) as [L7 U7].
  unfold unit_roundoff in *. repeat split; lra.
Qed.

(** X23. The risk level never falls when the dissimilarity grows: below a
    dissimilarity of level Low every dissimilarity is Low, and above one of
    level High every dissimilarity is High. *)
Theorem X23_risk_level_monotone (d1 d2 : float) :
  (d1 <= d2)%Q ->
  (snd (gauge_level d2) = "Low"%string -> snd (gauge_level d1) = "Low"%string)
  /\ (snd (gauge_level d1) = "High"%string -> snd (gauge_level d2) = "High"%string)
  /\ (snd (gauge_level d1) = "Medium"%string -> snd (gauge_level d2) <> "Low"%string).
Proof.
  intros Hle. destruct thresholds_ordered as (_ & H37 & _).
  unfold gauge_level.
  destruct (Qlt_le_dec d1 (RN 0.3)), (Qlt_le_dec d1 (RN 0.7)),
           (Qlt_le_dec d2 (RN 0.3)), (Qlt_le_dec d2 (RN 0.7));
    cbn [snd]; repeat split; try congruence; try discriminate; exfalso; lra.
Qed.

(** X24. The summary chart colours a dissimilarity bar as the gauge colours
    its arc, and the colour tells the level: green is Low, orange is
    Medium, red is High. *)
Theorem X24_bar_colour_is_gauge_colour (dissim : float) :
  bar_colour dissim = fst (gauge_level dissim)
  /\ (bar_colour dissim = "green"%string <-> snd (gauge_level dissim) = "Low"%string)
  /\ (bar_colour dissim = "orange"%string <-> snd (gauge_level dissim) = "Medium"%string)
  /\ (bar_colour dissim = "red"%string <-> snd (gauge_level dissim) = "High"%string).
Proof.
  unfold bar_colour, gauge_level.
  destruct (Qlt_le_dec dissim (RN 0.3)), (Qlt_le_dec dissim (RN 0.7));
    cbn [fst snd]; repeat split; intros; try reflexivity; discriminate.
Qed.


(** X26. The value axis always holds the bar: its upper end
    [max(value * 1.1, 1)] is at least the value and at least 1, so the axis
    is never empty and the bar never leaves it. *)
Theorem X26_axis_holds_the_bar (value : float) :
  (value <= axis_top value)%Q /\ (1 <= axis_top value)%Q.
Proof.
  unfold axis_top, py_max, float_mul.
  destruct (RN_nonneg_bounds 1.1 ltac:(discriminate)) as [La _].
  set (a := RN 1.1) in *.
  assert (Ha : (1.09 <= a)%Q) by (unfold unit_roundoff in *; lra).
  destruct (Qlt_le_dec value 0) as [Hneg | Hv].
  - assert (Hx : ((- value) * 1.09 <= (- value) * a)%Q).
    { rewrite !(Qmult_comm (- value)). apply Qmult_le_compat_r; lra. }
    assert (E : ((- value) * a == - (value * a))%Q) by ring.
    assert (Hx0 : (value * a <= 0)%Q) by lra.
    pose proof (RN_bounds (value * a)) as [_ Ux].
    rewrite (Qabs_neg _ Hx0) in Ux. unfold unit_roundoff in Ux.
    clear E. generalize dependent (value * a)%Q. intros x Hx0 Ux.
    generalize dependent (RN x). intros y Uy.
    destruct (Qlt_le_dec y 1); split; first [lra | apply Qle_refl].
  - assert (Hx : (value * 1.09 <= value * a)%Q).
    { rewrite !(Qmult_comm value). apply Qmult_le_compat_r; assumption. }
    assert (Hx0 : (0 <= value * a)%Q) by lra.
    destruct (RN_nonneg_bounds (value * a) Hx0) as [Lx _].
    unfold unit_roundoff in Lx.
    generalize dependent (value * a)%Q. intros x Hx Hx0.
    generalize (RN x). intros y Lx.
    destruct (Qlt_le_dec y 1); split; first [lra | apply Qle_refl].
Qed.
End RiskLevel.

Lemma X23_risk_level_monotone_witness :
  snd (gauge_level 0.1) = "Low"%string.
Proof.
  refine (proj1 (X23_risk_level_monotone 0.1 0.25 _) _).
  - discriminate.
  - reflexivity.
Defined.


(** The text [1.2.3]: the message of [float] quotes it. *)
Lemma X22_flow_error_iff_witness :
  parse_flow_value (py "1.2.3")
  = Raised (ValueError (py "could not convert string to float: '1.2.3'")).
Proof.
  apply (proj2 (proj1 (X22_flow_error_iff (py "1.2.3")))).
  left. apply le_n.
Defined.
